(** * The task service of inago (task/task_service.go)

    A shallow embedding of the task service: the [Task] record, the service
    methods written once as small programs over the atomic operations they
    perform (field assignments through a [*Task], calls on the configured
    Storage, the logger, [go], [select]), a sequential semantics for a method
    called on its own, and an interleaving semantics for [Create], whose
    goroutine runs concurrently with the caller.

    Threads interleave at the level of statements: an assignment to a field
    and a call on the Storage are each one step, and a step sees the effect
    of every step before it.  Time is logical: the clock counts the
    intervals a [select] has waited. *)

From Stdlib Require Import ZArith Lia.
From stdpp Require Import base option list gmap strings pretty.

Open Scope string_scope.
Open Scope list_scope.
Open Scope nat_scope.

(** ** Data model *)

(** Modelled from the spec: the declarations of the two status types and of
    the constants [StatusStarted], [StatusStopped], [StatusFailed] and
    [StatusSucceeded] are not part of the source files at hand.  The spec
    gives ActiveStatus as the enumeration Started, Stopped and FinalStatus as
    the enumeration empty, Succeeded, Failed; [StatusEmpty] stands for the
    empty string that [Create] writes into [FinalStatus]. *)
Module Status.
Inductive ActiveStatus : Set := StatusStarted | StatusStopped.
Inductive FinalStatus : Set := StatusEmpty | StatusFailed | StatusSucceeded.
End Status.
Import Status.

#[global] Instance ActiveStatus_eq_dec : EqDecision Status.ActiveStatus.
Proof. solve_decision. Defined.
#[global] Instance FinalStatus_eq_dec : EqDecision Status.FinalStatus.
Proof. solve_decision. Defined.

(** [type Task struct], lines 15-29. *)
Record Task : Set := mkTask {
  ActiveStatus : Status.ActiveStatus;
  Error : string;
  FinalStatus : Status.FinalStatus;
  ID : string
}.

#[global] Instance Task_eq_dec : EqDecision Task.
Proof. solve_decision. Defined.

(** Modelled from the spec: the error values of the package are declared
    outside the source files at hand.  The spec names three kinds; a Go
    [error] is a value with an [Error() string] method, here [message]. *)
Inductive ErrorKind : Set := NotFoundError | StorageError | ActionError.

Record error : Set := mkError { kind : ErrorKind; message : string }.

#[global] Instance ErrorKind_eq_dec : EqDecision ErrorKind.
Proof. solve_decision. Defined.
#[global] Instance error_eq_dec : EqDecision error.
Proof. solve_decision. Defined.

(** [type Action func() error]: the work of a task, [None] for a nil error. *)
Definition Action : Set := unit -> option error.

(** Modelled from the spec: [HasFinalStatus] is defined outside the source
    files at hand; the spec describes the test made by the wait loop as
    "FinalStatus != empty". *)
Definition HasFinalStatus (t : Task) : bool :=
  bool_decide (FinalStatus t <> StatusEmpty).

(** Modelled from the spec: the Storage interface is declared outside the
    source files at hand.  The spec gives it as a keyed persistence
    abstraction, [Get(id) -> Task | NotFoundError] and
    [Set(task) -> ok | error]; a failed write may or may not leave the
    backend as it was, so [Storage_Set] always returns the next state. *)
Class Storage (St : Type) := {
  Storage_Get : St -> string -> Task + error;
  Storage_Set : St -> Task -> St * option error
}.

(** Modelled from the spec: the contract the service asks of its backend,
    "read-after-write visibility for a single key within the process", and a
    [Get] that "returns the most recently persisted snapshot": a record read
    back was there before the last write or is the record just written. *)
Class StorageLaws (St : Type) `{Storage St} : Prop := {
  get_after_set : forall s t s',
    Storage_Set s t = (s', None) -> Storage_Get s' (ID t) = inl t;
  get_keeps_records : forall s t s' r taskID u,
    Storage_Set s t = (s', r) -> Storage_Get s' taskID = inl u ->
    u = t \/ Storage_Get s taskID = inl u
}.

(** ** Atomic operations and programs *)

(** A [*Task] is an index into the heap of task objects. *)
Definition loc : Set := nat.

(** The two cases of the [select] statement in [WaitForFinalStatus]. *)
Inductive select_case : Set := CloserCase | TimerCase.

(** What a program can do in one step: allocate a task object, read one
    through a pointer that may be nil, assign one of its fields, draw an
    identifier, run the action, call the Storage, log, or wait in a
    [select].  A closer channel is given by the instant at which it becomes
    ready, if it ever does.  An action is taken for its result alone. *)
Inductive op : Type -> Type :=
| NewTask (t : Task) : op loc
| Load (p : option loc) : op Task
| SetActiveStatus (p : loc) (a : Status.ActiveStatus) : op unit
| SetError (p : loc) (msg : string) : op unit
| SetFinalStatus (p : loc) (f : Status.FinalStatus) : op unit
| NewV4 : op string
| RunAction (a : Action) : op (option error)
| StorageGet (taskID : string) : op (Task + error)
| StorageSet (p : loc) : op (option error)
| LogError (e : error) : op unit
| Select (closer : option Z) (d : Z) : op select_case.

(** Programs: sequences of atomic operations, with [go]. *)
Inductive prog (A : Type) : Type :=
| Ret (a : A)
| Do {X : Type} (o : op X) (k : X -> prog A)
| Go (body : prog unit) (k : prog A).

Arguments Ret {A} a.
Arguments Do {A X} o k.
Arguments Go {A} body k.

Fixpoint bind {A B} (p : prog A) (f : A -> prog B) : prog B :=
  match p with
  | Ret a => f a
  | Do o k => Do o (fun x => bind (k x) f)
  | Go body k => Go body (bind k f)
  end.

Definition perform {X} (o : op X) : prog X := Do o Ret.

#[global] Instance prog_ret : MRet prog := @Ret.
#[global] Instance prog_bind : MBind prog := fun A B f p => bind p f.

(** ** The service *)

Section Service.

Context {St : Type} `{!Storage St}.

(** [maskAny] wraps an error with the place it passed through; it is declared
    outside the source files at hand and nothing is assumed about it. *)
Variable maskAny : error -> error.

(** [uuid.NewV4().String()], as a function of the number of identifiers
    drawn so far. *)
Variable uuid : nat -> string.

(** [Config.WaitSleep], a [time.Duration]: a signed number of nanoseconds. *)
Variable WaitSleep : Z.

(** Calls made on the Storage, recorded for the statements below. *)
Inductive event : Type :=
| EvGet (taskID : string) (r : Task + error)
| EvSet (t : Task) (r : option error).

(** The state the threads share: the task objects, the state of the
    Storage, the number of identifiers drawn, what was logged, the calls made
    on the Storage, the time, and what the runtime decides at a [select]:
    the coins it tosses, how long the goroutine takes from arming the timer
    to looking at the channels, and how many times a [select] over a closer
    has asked. *)
Record World : Type := mkWorld {
  heap : list Task;
  store : St;
  issued : nat;
  logged : list error;
  events : list event;
  clock : Z;
  coins : nat -> bool;
  lag : nat -> Z;
  flips : nat
}.

Definition with_heap (h : list Task) (w : World) : World :=
  mkWorld h (store w) (issued w) (logged w) (events w) (clock w) (coins w) (lag w) (flips w).

Definition with_store (s : St) (ev : event) (w : World) : World :=
  mkWorld (heap w) s (issued w) (logged w) (events w ++ [ev]) (clock w) (coins w) (lag w) (flips w).

Definition with_issued (n : nat) (w : World) : World :=
  mkWorld (heap w) (store w) n (logged w) (events w) (clock w) (coins w) (lag w) (flips w).

Definition with_logged (l : list error) (w : World) : World :=
  mkWorld (heap w) (store w) (issued w) l (events w) (clock w) (coins w) (lag w) (flips w).

Definition with_clock (t : Z) (n : nat) (w : World) : World :=
  mkWorld (heap w) (store w) (issued w) (logged w) (events w) t (coins w) (lag w) n.

(** Assignment to one field of [*p]; a nil or dangling pointer panics. *)
Definition assign (p : loc) (f : Task -> Task) (w : World) : option (unit * World) :=
  match heap w !! p with
  | Some t => Some (tt, with_heap (<[p := f t]> (heap w)) w)
  | None => None
  end.

(** [select] over the closer and [time.After d].  The timer expires at
    [clock + max 0 d]; the closer is ready at its instant, or now if that is
    past; the goroutine looks at the two channels [lag] after it has armed
    the timer.  A case that is ready before the other one, and before the
    other one is ready the goroutine has looked, is taken.  When both are
    ready by the time the goroutine looks, or become ready at the same
    instant, one of them is chosen by a coin, as [select] chooses among the
    cases that can proceed: a timer short enough has expired by then, and a
    closer that has fired does not stop the timer case from being taken.
    Without a closer only the timer can fire.  The clock moves to the
    instant at which the case taken was ready; the lag is not added to it. *)
Definition select (closer : option Z) (d : Z) (w : World) : select_case * World :=
  let timer := (clock w + Z.max 0 d)%Z in
  match closer with
  | None => (TimerCase, with_clock timer (flips w) w)
  | Some c =>
      let ready := Z.max (clock w) c in
      let look := (clock w + Z.max 0 (lag w (flips w)))%Z in
      if (ready <? timer)%Z && (look <? timer)%Z
      then (CloserCase, with_clock ready (S (flips w)) w)
      else if (timer <? ready)%Z && (look <? ready)%Z
      then (TimerCase, with_clock timer (S (flips w)) w)
      else if coins w (flips w)
      then (CloserCase, with_clock ready (S (flips w)) w)
      else (TimerCase, with_clock timer (S (flips w)) w)
  end.

(** One atomic operation; [None] is a panic. *)
Definition sem_op {X} (o : op X) (w : World) : option (X * World) :=
  match o in op X return option (X * World) with
  | NewTask t => Some (length (heap w), with_heap (heap w ++ [t]) w)
  | Load p => l ← p; t ← heap w !! l; Some (t, w)
  | SetActiveStatus p a =>
      assign p (fun t => mkTask a (Error t) (FinalStatus t) (ID t)) w
  | SetError p msg =>
      assign p (fun t => mkTask (ActiveStatus t) msg (FinalStatus t) (ID t)) w
  | SetFinalStatus p f =>
      assign p (fun t => mkTask (ActiveStatus t) (Error t) f (ID t)) w
  | NewV4 => Some (uuid (issued w), with_issued (S (issued w)) w)
  | RunAction a => Some (a tt, w)
  | StorageGet taskID =>
      let r := Storage_Get (store w) taskID in
      Some (r, with_store (store w) (EvGet taskID r) w)
  | StorageSet p =>
      t ← heap w !! p;
      let '(s', r) := Storage_Set (store w) t in
      Some (r, with_store s' (EvSet t r) w)
  | LogError e => Some (tt, with_logged (logged w ++ [e]) w)
  | Select closer d => Some (select closer d w)
  end.

(** A method called on its own: its operations run one after the other;
    goroutines it starts are handed back, not run. *)
Fixpoint run {A} (p : prog A) (w : World) : option (A * World * list (prog unit)) :=
  match p with
  | Ret a => Some (a, w, [])
  | Do o k =>
      match sem_op o w with
      | Some (x, w') => run (k x) w'
      | None => None
      end
  | Go body k =>
      match run k w with
      | Some (a, w', gs) => Some (a, w', body :: gs)
      | None => None
      end
  end.

(** [taskService.PersistState], lines 166-173. *)
Definition PersistState (taskObject : loc) : prog (option error) :=
  err ← perform (StorageSet taskObject);
  match err with
  | Some e => Ret (Some (maskAny e))
  | None => Ret None
  end.

(** [taskService.FetchState], lines 130-139.  The Storage hands back the
    record kept under the key; the [*Task] returned points to a task object
    that holds it. *)
Definition FetchState (taskID : string) : prog (option loc * option error) :=
  r ← perform (StorageGet taskID);
  match r with
  | inr e => Ret (None, Some (maskAny e))
  | inl t => taskObject ← perform (NewTask t); Ret (Some taskObject, None)
  end.

(** [taskService.MarkAsFailedWithError], lines 141-152. *)
Definition MarkAsFailedWithError (taskObject : loc) (err : error)
  : prog (option loc * option error) :=
  _ ← perform (SetActiveStatus taskObject StatusStopped);
  _ ← perform (SetError taskObject (message err));
  _ ← perform (SetFinalStatus taskObject StatusFailed);
  err' ← PersistState taskObject;
  match err' with
  | Some e => Ret (None, Some (maskAny e))
  | None => Ret (Some taskObject, None)
  end.

(** [taskService.MarkAsSucceeded], lines 154-164. *)
Definition MarkAsSucceeded (taskObject : loc) : prog (option loc * option error) :=
  _ ← perform (SetActiveStatus taskObject StatusStopped);
  _ ← perform (SetFinalStatus taskObject StatusSucceeded);
  err ← PersistState taskObject;
  match err with
  | Some e => Ret (None, Some (maskAny e))
  | None => Ret (Some taskObject, None)
  end.

(** The goroutine started by [Create], lines 104-120. *)
Definition Create_goroutine (action : Action) (taskObject : loc) : prog unit :=
  err ← perform (RunAction action);
  match err with
  | Some e =>
      r ← MarkAsFailedWithError taskObject e;
      match snd r with
      | Some markErr => perform (LogError (maskAny markErr))
      | None => Ret tt
      end
  | None =>
      r ← MarkAsSucceeded taskObject;
      match snd r with
      | Some err' => perform (LogError (maskAny err'))
      | None => Ret tt
      end
  end.

(** [taskService.Create], lines 95-128. *)
Definition Create (action : Action) : prog (option loc * option error) :=
  id ← perform NewV4;
  taskObject ← perform (NewTask (mkTask StatusStarted "" StatusEmpty id));
  Go (Create_goroutine action taskObject)
     (err ← PersistState taskObject;
      match err with
      | Some e => Ret (None, Some (maskAny e))
      | None => Ret (Some taskObject, None)
      end).

(** One turn of the loop of [WaitForFinalStatus], lines 180-192: [Some] is a
    [return], [None] goes round again. *)
Definition WaitForFinalStatus_turn (taskID : string) (closer : option Z)
  : prog (option (option loc * option error)) :=
  c ← perform (Select closer WaitSleep);
  match c with
  | CloserCase => Ret (Some (None, None))
  | TimerCase =>
      r ← FetchState taskID;
      match r with
      | (_, Some err) => Ret (Some (None, Some (maskAny err)))
      | (taskObject, None) =>
          t ← perform (Load taskObject);
          if HasFinalStatus t then Ret (Some (taskObject, None)) else Ret None
      end
  end.

(** Writes made to the Storage by other goroutines between two turns. *)
Definition interfere (f : St -> St) (w : World) : World :=
  mkWorld (heap w) (f (store w)) (issued w) (logged w) (events w) (clock w) (coins w) (lag w) (flips w).

(** [taskService.WaitForFinalStatus], lines 178-194.  The loop has no bound
    of its own; [others] gives, for each turn observed, what the other
    goroutines did to the Storage before it.  The result is [Some r] when the
    call returned [r] within these turns and [None] when it is still
    waiting after them. *)
Fixpoint WaitForFinalStatus (others : list (St -> St)) (taskID : string)
    (closer : option Z) (w : World)
  : option (option (option loc * option error) * World) :=
  match others with
  | [] => Some (None, w)
  | f :: others' =>
      match run (WaitForFinalStatus_turn taskID closer) (interfere f w) with
      | Some (Some r, w', _) => Some (Some r, w')
      | Some (None, w', _) => WaitForFinalStatus others' taskID closer w'
      | None => None
      end
  end.

(** The pair returned by a method that persists [*p] and hands [p] back:
    [PersistState] masks the error of the Storage and its caller masks it
    once more. *)
Definition persisted_result (p : loc) (r : option error) : option loc * option error :=
  match r with
  | Some e => (None, Some (maskAny (maskAny e)))
  | None => (Some p, None)
  end.

(** [replay s evs s']: the calls [evs], made in this order on a Storage in
    state [s], leave it in state [s']. *)
Inductive replay : St -> list event -> St -> Prop :=
| replay_nil s : replay s [] s
| replay_get s evs s' taskID :
    replay s evs s' -> replay s (evs ++ [EvGet taskID (Storage_Get s' taskID)]) s'
| replay_set s evs s1 t s2 r :
    replay s evs s1 -> Storage_Set s1 t = (s2, r) -> replay s (evs ++ [EvSet t r]) s2.

(** The status invariant of the data model. *)
Definition status_consistent (t : Task) : Prop :=
  FinalStatus t <> StatusEmpty -> ActiveStatus t = StatusStopped.

(** All task objects satisfy it; all records the Storage hands out do. *)
Definition heap_consistent (h : list Task) : Prop :=
  forall p t, h !! p = Some t -> status_consistent t.

Definition store_consistent (s : St) : Prop :=
  forall taskID t, Storage_Get s taskID = inl t -> status_consistent t.

Definition world_consistent (w : World) : Prop :=
  heap_consistent (heap w) /\ store_consistent (store w).

(** The record under [taskID] is there and not final. *)
Definition pending (taskID : string) (s : St) : Prop :=
  exists t, Storage_Get s taskID = inl t /\ FinalStatus t = StatusEmpty.

(** ** Goroutines: the interleaving semantics *)

(** The main thread, the goroutines started so far, and the shared world. *)
Record config (A : Type) : Type := mkConfig {
  main : prog A;
  pool : list (prog unit);
  world : World
}.

Arguments mkConfig {A} main pool world.
Arguments main {A} c.
Arguments pool {A} c.
Arguments world {A} c.

(** One step of one thread: the program left, the world, and the goroutines
    started by the step.  A finished thread stays as it is; [None] is a
    panic, which ends the whole process. *)
Definition thread_step {A} (p : prog A) (w : World)
  : option (prog A * World * list (prog unit)) :=
  match p with
  | Ret a => Some (Ret a, w, [])
  | Do o k =>
      match sem_op o w with
      | Some (x, w') => Some (k x, w', [])
      | None => None
      end
  | Go body k => Some (k, w, [body])
  end.

(** The scheduler picks thread [i]: [0] is the main thread, [S j] is
    goroutine [j]; picking a goroutine that does not exist changes nothing. *)
Definition sched_step {A} (i : nat) (c : config A) : option (config A) :=
  match i with
  | O =>
      match thread_step (main c) (world c) with
      | Some (m, w, gs) => Some (mkConfig m (pool c ++ gs) w)
      | None => None
      end
  | S j =>
      match pool c !! j with
      | None => Some c
      | Some g =>
          match thread_step g (world c) with
          | Some (g', w, gs) => Some (mkConfig (main c) (<[j := g']> (pool c) ++ gs) w)
          | None => None
          end
      end
  end.

(** A schedule is the list of the threads picked, in order. *)
Fixpoint exec {A} (sched : list nat) (c : config A) : option (config A) :=
  match sched with
  | [] => Some c
  | i :: sched' =>
      match sched_step i c with
      | Some c' => exec sched' c'
      | None => None
      end
  end.

Definition finished {A} (p : prog A) : Prop :=
  match p with Ret _ => True | _ => False end.

(** Every thread has returned. *)
Definition complete {A} (c : config A) : Prop :=
  finished (main c) /\ Forall finished (pool c).

End Service.

Arguments mkConfig {St A} main pool world.
Arguments main {St A} c.
Arguments pool {St A} c.
Arguments world {St A} c.

(** ** Storage backends *)

(** Modelled from the spec: [NewMemoryStorage] is defined outside the source
    files at hand; the spec describes the reference backend as a keyed map
    guarded by a mutex, whose [Get] fails with NotFound for an absent key.
    The text of that error is not given; it plays no part below. *)
#[global] Instance MemoryStorage : Storage (gmap string Task) := {
  Storage_Get m taskID :=
    match m !! taskID with
    | Some t => inl t
    | None => inr (mkError NotFoundError "task object not found")
    end;
  Storage_Set m t := (<[ID t := t]> m, None)
}.

(** A backend for the failure paths: the keyed map above together with a
    script telling, for each write in turn, whether the backend refuses it.
    A refused write leaves the map as it was. *)
Definition FlakyStore : Type := gmap string Task * list bool.

#[global] Instance FlakyStorage : Storage FlakyStore := {
  Storage_Get s taskID :=
    match s.1 !! taskID with
    | Some t => inl t
    | None => inr (mkError NotFoundError "task object not found")
    end;
  Storage_Set s t :=
    match s.2 with
    | true :: script => ((s.1, script), Some (mkError StorageError "write refused"))
    | false :: script => ((<[ID t := t]> s.1, script), None)
    | [] => ((<[ID t := t]> s.1, []), None)
    end
}.

(** [DefaultConfig]: one second between two polls. *)
Definition DefaultWaitSleep : Z := 1000000000.

(** An [errgo]-free stand-in for [maskAny] used in the examples: the error
    is handed on as it is. *)
Definition maskNone (e : error) : error := e.

(** Identifiers for the examples: the decimal numeral of the count. *)
Definition uuid_of_count (n : nat) : string := pretty n.

(** A world with no task object, over a Storage in state [s]. *)
Definition world0 {St} (s : St) : @World St :=
  mkWorld [] s 0 [] [] 0%Z (fun _ => false) (fun _ => 0%Z) 0.

(** ** The stages of [Create] and of its goroutine

    [Create] called with [action] in the world [w0], and the goroutine it
    starts, pass through the stages below; each stage fixes the program the
    thread has left to run and the value of the task record.  The proofs
    show that every schedule leads from one stage to the next. *)

Section CreateStages.

Context {St : Type} `{!Storage St}.
Variable maskAny : error -> error.
Variable uuid : nat -> string.
Variable action : Action.
Variable w0 : @World St.

(** The pointer [Create] allocates and the identifier it draws. *)
Definition new_loc : loc := length (heap w0).
Definition new_id : string := uuid (issued w0).

(** Where the goroutine stands: about to run the action; after the action
    failed with [e], before each of the three assignments of
    [MarkAsFailedWithError], before its write, before logging the error [e']
    of a refused write, at its end with the result [r] of the write; and the
    same for [MarkAsSucceeded] after an action that succeeded. *)

Inductive gstage : Set :=
| GRun
| GFail0 (e : error)
| GFail1 (e : error)
| GFail2 (e : error)
| GFail3 (e : error)
| GFailLog (e e' : error)
| GFailEnd (e : error) (r : option error)
| GSucc0
| GSucc1
| GSucc2
| GSuccLog (e' : error)
| GSuccEnd (r : option error).

(** The task record at each stage. *)
Definition g_rec (gs : gstage) : Task :=
  match gs with
  | GRun | GFail0 _ | GSucc0 => mkTask StatusStarted "" StatusEmpty new_id
  | GFail1 _ | GSucc1 => mkTask StatusStopped "" StatusEmpty new_id
  | GFail2 e => mkTask StatusStopped (message e) StatusEmpty new_id
  | GFail3 e | GFailLog e _ | GFailEnd e _ => mkTask StatusStopped (message e) StatusFailed new_id
  | GSucc2 | GSuccLog _ | GSuccEnd _ => mkTask StatusStopped "" StatusSucceeded new_id
  end.

(** The end of the goroutine: an error of the marking method is logged. *)
Definition log_mark_error (r : option loc * option error) : prog unit :=
  match snd r with
  | Some markErr => perform (LogError (maskAny markErr))
  | None => Ret tt
  end.

(** The last two statements of [Create] and of both marking methods. *)
Definition persist_and_return (p : loc) : prog (option loc * option error) :=
  err ← PersistState maskAny p;
  match err with
  | Some e => Ret (None, Some (maskAny e))
  | None => Ret (Some p, None)
  end.

(** What the goroutine has left to run at each stage. *)
Definition g_prog (gs : gstage) : prog unit :=
  let p := new_loc in
  match gs with
  | GRun => Create_goroutine maskAny action p
  | GFail0 e => r ← MarkAsFailedWithError maskAny p e; log_mark_error r
  | GFail1 e =>
      r ← (_ ← perform (SetError p (message e));
           _ ← perform (SetFinalStatus p StatusFailed);
           persist_and_return p);
      log_mark_error r
  | GFail2 e =>
      r ← (_ ← perform (SetFinalStatus p StatusFailed); persist_and_return p);
      log_mark_error r
  | GFail3 _ | GSucc2 => r ← persist_and_return p; log_mark_error r
  | GFailLog _ e' | GSuccLog e' => perform (LogError (maskAny (maskAny (maskAny e'))))
  | GFailEnd _ _ | GSuccEnd _ => Ret tt
  | GSucc0 => r ← MarkAsSucceeded maskAny p; log_mark_error r
  | GSucc1 =>
      r ← (_ ← perform (SetFinalStatus p StatusSucceeded); persist_and_return p);
      log_mark_error r
  end.

(** A stage agrees with the result of the action. *)
Definition g_ok (gs : gstage) : Prop :=
  match gs with
  | GRun => True
  | GFail0 e | GFail1 e | GFail2 e | GFail3 e | GFailLog e _ | GFailEnd e _ =>
      action tt = Some e
  | GSucc0 | GSucc1 | GSucc2 | GSuccLog _ | GSuccEnd _ => action tt = None
  end.

(** The call the goroutine has made on the Storage, and what it has logged. *)
Definition g_written (gs : gstage) : list event :=
  match gs with
  | GFailLog _ e' | GSuccLog e' => [EvSet (g_rec gs) (Some e')]
  | GFailEnd _ r | GSuccEnd r => [EvSet (g_rec gs) r]
  | _ => []
  end.

Definition g_logged (gs : gstage) : list error :=
  match gs with
  | GFailEnd _ (Some e') | GSuccEnd (Some e') => [maskAny (maskAny (maskAny e'))]
  | _ => []
  end.

(** A bound on the steps the goroutine has left. *)
Definition g_left (gs : gstage) : nat :=
  match gs with
  | GRun => 6
  | GFail0 _ => 5
  | GFail1 _ | GSucc0 => 4
  | GFail2 _ | GSucc1 => 3
  | GFail3 _ | GSucc2 => 2
  | GFailLog _ _ | GSuccLog _ => 1
  | GFailEnd _ _ | GSuccEnd _ => 0
  end.

(** Where the caller stands in [Create]: at its start, with the identifier
    drawn, with the record allocated, with the goroutine started and the
    write to come, and returned, the write having handed the record of stage
    [gs] to the Storage with result [r]. *)
Inductive mstage : Set :=
| MStart
| MNamed
| MAlloc
| MPersist
| MEnd (gs : gstage) (r : option error).

(** What the caller has left to run, the call it has made on the Storage,
    and a bound on the steps it has left. *)
Definition m_prog (ms : mstage) : prog (option loc * option error) :=
  match ms with
  | MStart => Create maskAny action
  | MNamed =>
      Do (NewTask (mkTask StatusStarted "" StatusEmpty new_id))
         (fun taskObject =>
            Go (Create_goroutine maskAny action taskObject) (persist_and_return taskObject))
  | MAlloc => Go (Create_goroutine maskAny action new_loc) (persist_and_return new_loc)
  | MPersist => persist_and_return new_loc
  | MEnd _ r => Ret (persisted_result maskAny new_loc r)
  end.

Definition m_written (ms : mstage) : list event :=
  match ms with
  | MEnd gs r => [EvSet (g_rec gs) r]
  | _ => []
  end.

Definition m_left (ms : mstage) : nat :=
  match ms with
  | MStart => 4
  | MNamed => 3
  | MAlloc => 2
  | MPersist => 1
  | MEnd _ _ => 0
  end.

(** Whether the identifier is drawn, the record allocated, the goroutine
    started. *)
Definition named (ms : mstage) : bool :=
  match ms with MStart => false | _ => true end.

Definition allocated (ms : mstage) : bool :=
  match ms with MStart | MNamed => false | _ => true end.

Definition spawned (ms : mstage) : bool :=
  match ms with MPersist | MEnd _ _ => true | _ => false end.

(** The calls made on the Storage so far are the caller's and the
    goroutine's, in either order; a caller that writes after the goroutine
    writes the record the goroutine wrote. *)
Definition events_ok (ms : mstage) (gs : gstage) (evs : list event) : Prop :=
  evs = m_written ms ++ g_written gs \/
  (evs = g_written gs ++ m_written ms /\
   forall gs1 r, ms = MEnd gs1 r -> g_written gs <> [] -> g_rec gs1 = g_rec gs).

(** The record the caller wrote is the record of a stage that agrees with
    the action. *)
Definition m_ok (ms : mstage) : Prop :=
  match ms with
  | MEnd gs _ => g_ok gs
  | _ => True
  end.

(** The configuration [c] is the one of stages [ms] and [gs]. *)
Definition reached (ms : mstage) (gs : gstage)
    (c : @config St (option loc * option error)) : Prop :=
  (g_ok gs /\ m_ok ms) /\
  (spawned ms = false -> gs = GRun) /\
  main c = m_prog ms /\
  pool c = (if spawned ms then [g_prog gs] else []) /\
  heap (world c) = (if allocated ms then heap w0 ++ [g_rec gs] else heap w0) /\
  issued (world c) = (if named ms then S (issued w0) else issued w0) /\
  (exists evs, events (world c) = events w0 ++ evs /\ events_ok ms gs evs) /\
  logged (world c) = logged w0 ++ g_logged gs.

(** [Create action] called in the world [w0]. *)
Definition Create_start : @config St (option loc * option error) :=
  mkConfig (Create maskAny action) [] w0.

(** Stages only move forward, and a record whose [FinalStatus] is set stays
    as it is. *)
Definition advance (ms : mstage) (gs : gstage) (ms' : mstage) (gs' : gstage) : Prop :=
  m_left ms' <= m_left ms /\ g_left gs' <= g_left gs /\
  (FinalStatus (g_rec gs) <> StatusEmpty -> g_rec gs' = g_rec gs) /\
  (forall gs1 r, ms = MEnd gs1 r -> ms' = ms).

(** The record the goroutine leaves behind: failed with the text of the
    action's error, or succeeded. *)
Definition terminal_record : Task :=
  match action tt with
  | Some e => mkTask StatusStopped (message e) StatusFailed new_id
  | None => mkTask StatusStopped "" StatusSucceeded new_id
  end.

(** The record as [Create] allocates it. *)
Definition initial_record : Task := mkTask StatusStarted "" StatusEmpty new_id.

End CreateStages.

(** ** Inputs for the examples *)

(** An action that fails, one that succeeds, and the error of a refused
    write. *)
Definition disk_full : error := mkError ActionError "disk full".
Definition failing : Action := fun _ => Some disk_full.
Definition succeeding : Action := fun _ => None.
Definition refused : error := mkError StorageError "write refused".

(** A task as [Create] makes it, and as the marking methods leave it. *)
Definition task1 : Task := mkTask StatusStarted "" StatusEmpty "t1".
Definition task1_failed : Task := mkTask StatusStopped "disk full" StatusFailed "t1".
Definition task1_succeeded : Task := mkTask StatusStopped "" StatusSucceeded "t1".

(** One task object, nothing stored yet. *)
Definition w_mem : @World (gmap string Task) :=
  mkWorld [task1] ∅ 0 [] [] 0%Z (fun _ => false) (fun _ => 0%Z) 0.

(** The same with a backend that refuses the next write. *)
Definition w_flaky : @World FlakyStore :=
  mkWorld [task1] (∅, [true]) 0 [] [] 0%Z (fun _ => false) (fun _ => 0%Z) 0.

(** No task object; the record of a succeeded task is stored. *)
Definition w_done : @World (gmap string Task) :=
  mkWorld [] {["t1" := task1_succeeded]} 0 [] [] 0%Z (fun _ => false) (fun _ => 0%Z) 0.

(** The same, with a goroutine that takes a microsecond from arming the
    timer to looking at the channels. *)
Definition w_done_late : @World (gmap string Task) :=
  mkWorld [] {["t1" := task1_succeeded]} 0 [] [] 0%Z (fun _ => false) (fun _ => 1000%Z) 0.

(** No task object; the record of a task that is not done is stored. *)
Definition w_waiting : @World (gmap string Task) :=
  mkWorld [] {["t1" := task1]} 0 [] [] 0%Z (fun _ => false) (fun _ => 0%Z) 0.

(** Three identifiers drawn so far. *)
Definition w_three : @World (gmap string Task) :=
  mkWorld [] ∅ 3 [] [] 0%Z (fun _ => false) (fun _ => 0%Z) 0.

(** No other goroutine writes to the Storage. *)
Definition unchanged {St} (s : St) : St := s.


(** ** Notions for the statements about whole runs *)

(** The state of the Storage once the other goroutines have made the writes
    that precede the first [k] turns of a wait. *)
Definition store_after {St} (others : list (St -> St)) (k : nat) (s : St) : St :=
  foldl (fun s f => f s) s (take k others).

(** Another goroutine stores the record of the task "t1", succeeded. *)
Definition finishes (m : gmap string Task) : gmap string Task :=
  <["t1" := task1_succeeded]> m.


(** * Proofs *)

(** ** A method called on its own *)

Section Sequential.

Context {St : Type} `{!Storage St}.
Variable maskAny : error -> error.
Variable uuid : nat -> string.

Implicit Types (w : @World St) (p : loc) (t : Task).

Lemma insert_lookup_heap (h : list Task) p t t' :
  h !! p = Some t -> <[p := t']> h !! p = Some t'.
Proof. intros Hp. apply list_lookup_insert_eq. eapply lookup_lt_Some; eauto. Qed.

Lemma heap_new (h : list Task) t : (h ++ [t]) !! length h = Some t.
Proof. by rewrite list_lookup_middle. Qed.

Lemma heap_new_insert (h : list Task) t t' : <[length h := t']> (h ++ [t]) = h ++ [t'].
Proof. rewrite insert_app_r_alt by lia. by rewrite Nat.sub_diag. Qed.

Lemma run_PersistState p t w :
  heap w !! p = Some t ->
  run uuid (PersistState maskAny p) w =
  Some (maskAny <$> (Storage_Set (store w) t).2,
        with_store (Storage_Set (store w) t).1 (EvSet t (Storage_Set (store w) t).2) w, []).
Proof.
  intros Hp. cbn. rewrite Hp. cbn.
  destruct (Storage_Set (store w) t) as [s' [e|]]; reflexivity.
Qed.

Lemma run_MarkAsSucceeded p t w :
  heap w !! p = Some t ->
  let t' := mkTask StatusStopped (Error t) StatusSucceeded (ID t) in
  let sr := Storage_Set (store w) t' in
  run uuid (MarkAsSucceeded maskAny p) w =
  Some (persisted_result maskAny p sr.2,
        with_store sr.1 (EvSet t' sr.2) (with_heap (<[p := t']> (heap w)) w), []).
Proof.
  intros Hp. cbn. unfold assign. rewrite Hp. cbn.
  rewrite (insert_lookup_heap _ _ _ _ Hp). cbn.
  rewrite list_insert_insert_eq.
  rewrite (insert_lookup_heap _ _ _ _ Hp). cbn.
  destruct (Storage_Set (store w) _) as [s' [e|]]; reflexivity.
Qed.

Lemma run_MarkAsFailedWithError p t err w :
  heap w !! p = Some t ->
  let t' := mkTask StatusStopped (message err) StatusFailed (ID t) in
  let sr := Storage_Set (store w) t' in
  run uuid (MarkAsFailedWithError maskAny p err) w =
  Some (persisted_result maskAny p sr.2,
        with_store sr.1 (EvSet t' sr.2) (with_heap (<[p := t']> (heap w)) w), []).
Proof.
  intros Hp. cbn. unfold assign. rewrite Hp. cbn.
  rewrite (insert_lookup_heap _ _ _ _ Hp). cbn.
  rewrite list_insert_insert_eq.
  rewrite (insert_lookup_heap _ _ _ _ Hp). cbn.
  rewrite list_insert_insert_eq.
  rewrite (insert_lookup_heap _ _ _ _ Hp). cbn.
  destruct (Storage_Set (store w) _) as [s' [e|]]; reflexivity.
Qed.

Lemma run_FetchState taskID w :
  run uuid (FetchState maskAny taskID) w =
  let r := Storage_Get (store w) taskID in
  let w1 := with_store (store w) (EvGet taskID r) w in
  match r with
  | inl t => Some ((Some (length (heap w)), None), with_heap (heap w ++ [t]) w1, [])
  | inr e => Some ((None, Some (maskAny e)), w1, [])
  end.
Proof. cbn. destruct (Storage_Get (store w) taskID); reflexivity. Qed.

End Sequential.


(** ** The calls recorded are the calls made *)

Section Traces.

Context {St : Type} `{!Storage St}.
Variable uuid : nat -> string.

Implicit Types (w : @World St).

Lemma replay_app s1 evs1 s2 evs2 s3 :
  replay s1 evs1 s2 -> replay s2 evs2 s3 -> replay s1 (evs1 ++ evs2) s3.
Proof.
  intros H1 H2. induction H2 as [s|s evs s' taskID H2 IH|s evs sa t sb r H2 IH Hset].
  - by rewrite app_nil_r.
  - rewrite app_assoc. apply replay_get. by apply IH.
  - rewrite app_assoc. eapply replay_set; [by apply IH | done].
Qed.

Lemma replay_last_set s evs t r s' :
  replay s (evs ++ [EvSet t r]) s' ->
  exists s1, replay s evs s1 /\ Storage_Set s1 t = (s', r).
Proof.
  intros H. remember (evs ++ [EvSet t r]) as l eqn:Hl.
  destruct H as [s|s evs0 s' taskID H|s evs0 sa t0 sb r0 H Hset].
  - by destruct evs.
  - apply app_inj_tail in Hl as [_ ?]. discriminate.
  - apply app_inj_tail in Hl as [-> [= -> ->]]. eauto.
Qed.

Lemma select_frame closer d w :
  heap (select closer d w).2 = heap w /\ store (select closer d w).2 = store w /\
  events (select closer d w).2 = events w.
Proof. unfold select. destruct closer; repeat case_match; done. Qed.

Lemma sem_op_replay {X} (o : op X) w x w' :
  sem_op uuid o w = Some (x, w') ->
  exists evs, events w' = events w ++ evs /\ replay (store w) evs (store w').
Proof.
  assert (Hsame : forall h, exists evs,
    events (with_heap h w) = events w ++ evs /\ replay (store w) evs (store (with_heap h w))).
  { intros h. exists []. split; [by rewrite app_nil_r | constructor]. }
  assert (Hnil : exists evs, events w = events w ++ evs /\ replay (store w) evs (store w)).
  { exists []. split; [by rewrite app_nil_r | constructor]. }
  destruct o as [t|p|p a|p msg|p f| |a|taskID|p|e|closer d]; cbn; unfold assign;
    intros Heq.
  - simplify_eq. apply Hsame.
  - destruct p as [l|]; [|done]. cbn in Heq.
    destruct (heap w !! l); cbn in Heq; simplify_eq. apply Hnil.
  - destruct (heap w !! p); simplify_eq. apply Hsame.
  - destruct (heap w !! p); simplify_eq. apply Hsame.
  - destruct (heap w !! p); simplify_eq. apply Hsame.
  - simplify_eq. apply Hnil.
  - simplify_eq. apply Hnil.
  - simplify_eq. exists [EvGet taskID (Storage_Get (store w) taskID)]. split; [done|].
    apply (replay_get _ []). constructor.
  - destruct (heap w !! p) as [t|]; [|done]. cbn in Heq.
    destruct (Storage_Set (store w) t) as [s' r] eqn:Hset. simplify_eq.
    eexists [EvSet t _]. split; [done|]. eapply (replay_set _ []); [constructor | done].
  - simplify_eq. apply Hnil.
  - simplify_eq. destruct (select_frame closer d w) as (_ & Hs & He).
    destruct (select closer d w) as [c w1]; cbn in *. simplify_eq.
    rewrite Hs, He. apply Hnil.
Qed.

Lemma thread_step_replay {A} (p : prog A) w p' w' gs :
  thread_step uuid p w = Some (p', w', gs) ->
  exists evs, events w' = events w ++ evs /\ replay (store w) evs (store w').
Proof.
  destruct p as [a|X o k|body k]; cbn; intros Heq.
  - simplify_eq. exists []. split; [by rewrite app_nil_r | constructor].
  - destruct (sem_op uuid o w) as [[x w1]|] eqn:Hop; simplify_eq.
    by eapply sem_op_replay.
  - simplify_eq. exists []. split; [by rewrite app_nil_r | constructor].
Qed.

Lemma sched_step_replay {A} i (c c' : @config St A) :
  sched_step uuid i c = Some c' ->
  exists evs, events (world c') = events (world c) ++ evs /\
    replay (store (world c)) evs (store (world c')).
Proof.
  destruct i as [|j]; cbn; intros Heq.
  - destruct (thread_step uuid (main c) (world c)) as [[[m w] gs]|] eqn:Hs; simplify_eq.
    by eapply thread_step_replay.
  - destruct (pool c !! j) as [g|]; simplify_eq.
    + destruct (thread_step uuid g (world c)) as [[[g' w] gs]|] eqn:Hs; simplify_eq.
      by eapply thread_step_replay.
    + exists []. split; [by rewrite app_nil_r | constructor].
Qed.

Lemma exec_replay {A} sched : forall (c c' : @config St A),
  exec uuid sched c = Some c' ->
  exists evs, events (world c') = events (world c) ++ evs /\
    replay (store (world c)) evs (store (world c')).
Proof.
  induction sched as [|i sched IH]; intros c c'; cbn; intros Heq.
  - simplify_eq. exists []. split; [by rewrite app_nil_r | constructor].
  - destruct (sched_step uuid i c) as [c1|] eqn:Hs; [|done].
    destruct (sched_step_replay _ _ _ Hs) as (evs1 & He1 & Hr1).
    destruct (IH _ _ Heq) as (evs2 & He2 & Hr2).
    exists (evs1 ++ evs2). split; [by rewrite He2, He1, app_assoc|].
    by eapply replay_app.
Qed.

(** What the Storage hands out after a series of writes was there before or
    is one of the records written. *)
Lemma replay_keeps_records `{!StorageLaws St} (P : Task -> Prop) s evs s' :
  replay s evs s' ->
  (forall t r, EvSet t r ∈ evs -> P t) ->
  (forall taskID t, Storage_Get s taskID = inl t -> P t) ->
  forall taskID t, Storage_Get s' taskID = inl t -> P t.
Proof.
  induction 1 as [s|s evs s' tid H IH|s evs sa t sb r H IH Hset]; intros Hev Hs; [done|..].
  - apply IH; [|done]. intros t r Hin. apply (Hev t r). apply elem_of_app. by left.
  - intros taskID u Hget.
    destruct (get_keeps_records _ _ _ _ _ _ Hset Hget) as [-> | Hold].
    + apply (Hev t r). apply elem_of_app. right. by apply list_elem_of_singleton.
    + eapply IH; [|done|done]. intros t' r' Hin. apply (Hev t' r'). apply elem_of_app. by left.
Qed.

End Traces.

(** ** [Create] and its goroutine under every schedule *)

Section CreateFacts.

Context {St : Type} `{!Storage St}.
Variable maskAny : error -> error.
Variable uuid : nat -> string.
Variable action : Action.
Variable w0 : @World St.

Local Abbreviation new_loc := (new_loc w0).
Local Abbreviation new_id := (new_id uuid w0).
Local Abbreviation g_rec := (g_rec uuid w0).
Local Abbreviation log_mark_error := (log_mark_error maskAny).
Local Abbreviation persist_and_return := (persist_and_return maskAny).
Local Abbreviation g_prog := (g_prog maskAny action w0).
Local Abbreviation g_ok := (g_ok action).
Local Abbreviation g_written := (g_written uuid w0).
Local Abbreviation g_logged := (g_logged maskAny).
Local Abbreviation m_prog := (m_prog maskAny uuid action w0).
Local Abbreviation m_written := (m_written uuid w0).
Local Abbreviation m_ok := (m_ok action).
Local Abbreviation events_ok := (events_ok uuid w0).
Local Abbreviation reached := (reached maskAny uuid action w0).
Local Abbreviation Create_start := (Create_start maskAny action w0).
Local Abbreviation advance := (advance uuid w0).
Local Abbreviation terminal_record := (terminal_record uuid action w0).
Local Abbreviation initial_record := (initial_record uuid w0).

Lemma events_ok_keep ms ms' gs gs' evs :
  m_written ms' = m_written ms -> g_written gs' = g_written gs ->
  (g_written gs <> [] -> g_rec gs' = g_rec gs) ->
  (forall gs1 r, ms' = MEnd gs1 r -> ms = ms') ->
  events_ok ms gs evs -> events_ok ms' gs' evs.
Proof.
  intros Hm Hg Hr Hms [-> | [-> Hrec]]; [left | right]; rewrite Hm, Hg; [done|].
  split; [done|]. intros gs1 r Heq Hne. rewrite Hr by done.
  specialize (Hms _ _ Heq). subst ms. eauto.
Qed.

Lemma events_ok_main ms gs r evs :
  m_written ms = [] ->
  events_ok ms gs evs -> events_ok (MEnd gs r) gs (evs ++ [EvSet (g_rec gs) r]).
Proof.
  intros Hm H. right. split.
  - destruct H as [-> | [-> _]]; rewrite Hm; cbn; by rewrite ?app_nil_r.
  - by intros ? ? [= -> ->].
Qed.

Lemma events_ok_goroutine ms gs gs' ev evs :
  g_written gs = [] -> g_written gs' = [ev] ->
  events_ok ms gs evs -> events_ok ms gs' (evs ++ [ev]).
Proof.
  intros Hg Hg' H. left. rewrite Hg'.
  destruct H as [-> | [-> _]]; rewrite Hg; cbn; by rewrite ?app_nil_r.
Qed.

Lemma reached_start : reached MStart GRun Create_start.
Proof.
  unfold reached; cbn. split_and!; auto.
  - exists []. split; [by rewrite app_nil_r | by left].
  - by rewrite app_nil_r.
Qed.

Ltac open_reached H :=
  let Hok := fresh "Hok" in let Hgs := fresh "Hgs" in
  let evs := fresh "evs" in let Hevs := fresh "Hevs" in
  match type of H with
  | reached _ _ ?c =>
      destruct c as [?m ?gl [?h ?s ?n ?lg ?ev ?ck ?cn ?lgs ?fl]];
      destruct H as ([Hok ?] & Hgs & ? & ? & ? & ? & (evs & ? & Hevs) & ?);
      cbn [main pool world heap store issued logged events clock coins lag flips] in *;
      subst
  end.

Lemma main_step ms gs c :
  reached ms gs c ->
  exists c' ms', sched_step uuid 0 c = Some c' /\ reached ms' gs c' /\
    m_left ms' = pred (m_left ms) /\
    (forall gs1 r, ms = MEnd gs1 r -> ms' = ms).
Proof.
  intros H. open_reached H.
  destruct ms; cbn [spawned allocated named m_prog app] in *.
  - eexists _, MNamed. split; [reflexivity|]. split; [|split; [reflexivity|discriminate]].
    unfold reached; cbn. split_and!; auto. exists evs; split; [done|].
    eapply events_ok_keep; [..|apply Hevs]; done.
  - eexists _, MAlloc. split; [reflexivity|]. split; [|split; [reflexivity|discriminate]].
    rewrite (Hgs eq_refl) in *.
    unfold reached; cbn. split_and!; auto. exists evs; split; [done|].
    eapply events_ok_keep; [..|apply Hevs]; done.
  - eexists _, MPersist. split; [reflexivity|]. split; [|split; [reflexivity|discriminate]].
    rewrite (Hgs eq_refl) in *.
    unfold reached; cbn. split_and!; auto. exists evs; split; [done|].
    eapply events_ok_keep; [..|apply Hevs]; done.
  - cbn. unfold new_loc. cbn. rewrite heap_new. cbn.
    destruct (Storage_Set s (g_rec gs)) as [s' r] eqn:Hset.
    destruct r as [e|];
      [eexists _, (MEnd gs (Some e)) | eexists _, (MEnd gs None)];
      (split; [reflexivity|]); (split; [|split; [reflexivity|discriminate]]).
    all: unfold reached; cbn; split_and!; auto; try discriminate.
    all: eexists (evs ++ [_]); split; [by rewrite app_assoc|].
    all: by apply (events_ok_main MPersist).
  - eexists _, (MEnd gs0 r). split; [reflexivity|].
    split; [|split; [reflexivity|auto]].
    unfold reached; cbn. split_and!; auto. exists evs; auto.
Qed.

Ltac assign_step :=
  cbn; unfold assign, new_loc; cbn; rewrite heap_new; cbn;
  rewrite heap_new_insert; reflexivity.

Ltac persist_step Hset :=
  cbn; unfold new_loc; cbn; rewrite heap_new; cbn; rewrite Hset; reflexivity.

Lemma goroutine_step ms gs c :
  reached ms gs c -> spawned ms = true ->
  exists c' gs', sched_step uuid 1 c = Some c' /\ reached ms gs' c' /\
    g_left gs' <= pred (g_left gs) /\
    (FinalStatus (g_rec gs) <> StatusEmpty -> g_rec gs' = g_rec gs).
Proof.
  intros H Hsp. open_reached H. rewrite Hsp in *. clear Hgs.
  assert (Hal : allocated ms = true) by (destruct ms; done).
  rewrite Hal in *.
  assert (Hnm : named ms = true) by (destruct ms; done).
  rewrite Hnm in *.
  assert (Hstep : forall g' w' gs',
    thread_step uuid (g_prog gs)
      (mkWorld (heap w0 ++ [g_rec gs]) s (S (issued w0))
         (logged w0 ++ g_logged gs) (events w0 ++ evs) ck cn lgs fl) = Some (g', w', []) ->
    reached ms gs' (mkConfig (m_prog ms) [g'] w') ->
    g_left gs' <= pred (g_left gs) ->
    (FinalStatus (g_rec gs) <> StatusEmpty -> g_rec gs' = g_rec gs) ->
    exists c' gs', sched_step uuid 1 {| main := m_prog ms; pool := [g_prog gs];
       world := mkWorld (heap w0 ++ [g_rec gs]) s (S (issued w0))
                  (logged w0 ++ g_logged gs) (events w0 ++ evs) ck cn lgs fl |} = Some c' /\
      reached ms gs' c' /\ g_left gs' <= pred (g_left gs) /\
      (FinalStatus (g_rec gs) <> StatusEmpty -> g_rec gs' = g_rec gs)).
  { intros g' w' gs' Hts ? ? ?. eexists _, gs'. split; [|by split_and!].
    cbn [sched_step pool lookup list_lookup main world]. rewrite Hts. reflexivity. }
  assert (Hmk : forall gs' g' w',
    g_ok gs' -> g' = g_prog gs' -> heap w' = heap w0 ++ [g_rec gs'] ->
    issued w' = S (issued w0) ->
    logged w' = logged w0 ++ g_logged gs' ->
    (exists evs', events w' = events w0 ++ evs' /\ events_ok ms gs' evs') ->
    reached ms gs' (mkConfig (m_prog ms) [g'] w')).
  { intros; subst. unfold reached; cbn. rewrite Hsp, Hal, Hnm. split_and!; auto; discriminate. }
  assert (Hev : forall gs', g_written gs' = g_written gs ->
    (g_written gs <> [] -> g_rec gs' = g_rec gs) ->
    exists evs', events w0 ++ evs = events w0 ++ evs' /\ events_ok ms gs' evs').
  { intros gs' ? ?. exists evs. split; [done|]. eapply events_ok_keep; [..|apply Hevs]; done. }
  assert (Hev' : forall gs' ev, g_written gs = [] -> g_written gs' = [ev] ->
    exists evs', (events w0 ++ evs) ++ [ev] = events w0 ++ evs' /\ events_ok ms gs' evs').
  { intros gs' ev ? ?. exists (evs ++ [ev]). split; [by rewrite app_assoc|].
    eapply events_ok_goroutine; eauto. }
  destruct gs; cbn [g_ok g_written g_logged g_left g_rec] in *.
  - destruct (action tt) as [e|] eqn:Ha.
    + eapply (Hstep _ _ (GFail0 e)); [cbn; rewrite Ha; reflexivity| |cbn; lia|done].
      apply Hmk; try done. by apply Hev.
    + eapply (Hstep _ _ GSucc0); [cbn; rewrite Ha; reflexivity| |cbn; lia|done].
      apply Hmk; try done. by apply Hev.
  - eapply (Hstep _ _ (GFail1 e)); [assign_step| |cbn; lia|done].
    apply Hmk; try done. by apply Hev.
  - eapply (Hstep _ _ (GFail2 e)); [assign_step| |cbn; lia|done].
    apply Hmk; try done. by apply Hev.
  - eapply (Hstep _ _ (GFail3 e)); [assign_step| |cbn; lia|done].
    apply Hmk; try done. by apply Hev.
  - destruct (Storage_Set s (mkTask StatusStopped (message e) StatusFailed new_id))
      as [s' [e'|]] eqn:Hset.
    + eapply (Hstep _ _ (GFailLog e e')); [persist_step Hset| |cbn; lia|done].
      apply Hmk; try done. by apply Hev'.
    + eapply (Hstep _ _ (GFailEnd e None)); [persist_step Hset| |cbn; lia|done].
      apply Hmk; try done. by apply Hev'.
  - eapply (Hstep _ _ (GFailEnd e (Some e'))); [reflexivity| |cbn; lia|done].
    apply Hmk; try done. { cbn. by rewrite app_nil_r. } by apply Hev.
  - eapply (Hstep _ _ (GFailEnd e r)); [reflexivity| |cbn; lia|done].
    apply Hmk; try done. by apply Hev.
  - eapply (Hstep _ _ GSucc1); [assign_step| |cbn; lia|done].
    apply Hmk; try done. by apply Hev.
  - eapply (Hstep _ _ GSucc2); [assign_step| |cbn; lia|done].
    apply Hmk; try done. by apply Hev.
  - destruct (Storage_Set s (mkTask StatusStopped "" StatusSucceeded new_id))
      as [s' [e'|]] eqn:Hset.
    + eapply (Hstep _ _ (GSuccLog e')); [persist_step Hset| |cbn; lia|done].
      apply Hmk; try done. by apply Hev'.
    + eapply (Hstep _ _ (GSuccEnd None)); [persist_step Hset| |cbn; lia|done].
      apply Hmk; try done. by apply Hev'.
  - eapply (Hstep _ _ (GSuccEnd (Some e'))); [reflexivity| |cbn; lia|done].
    apply Hmk; try done. { cbn. by rewrite app_nil_r. } by apply Hev.
  - eapply (Hstep _ _ (GSuccEnd r)); [reflexivity| |cbn; lia|done].
    apply Hmk; try done. by apply Hev.
Qed.

Lemma advance_refl ms gs : advance ms gs ms gs.
Proof. by unfold advance. Qed.

Lemma advance_trans ms1 gs1 ms2 gs2 ms3 gs3 :
  advance ms1 gs1 ms2 gs2 -> advance ms2 gs2 ms3 gs3 -> advance ms1 gs1 ms3 gs3.
Proof.
  intros (H1 & H2 & H3 & H4) (K1 & K2 & K3 & K4). unfold advance. split_and!; try lia.
  - intros Hf. rewrite <- (H3 Hf). apply K3. by rewrite (H3 Hf).
  - intros g r ->. pose proof (H4 _ _ eq_refl) as ->. by apply K4 with g r.
Qed.

Lemma allocated_left ms : allocated ms = true <-> m_left ms <= 2.
Proof. destruct ms; cbn; split; (done || lia). Qed.

Lemma spawned_left ms : spawned ms = true <-> m_left ms <= 1.
Proof. destruct ms; cbn; split; (done || lia). Qed.

Lemma idle_step ms gs c j :
  reached ms gs c -> (spawned ms = false \/ 0 < j) -> sched_step uuid (S j) c = Some c.
Proof.
  intros (_ & _ & _ & Hp & _) Hj. cbn. rewrite Hp.
  destruct Hj as [-> | Hj]; [done|].
  destruct j; [lia|]. by destruct (spawned ms).
Qed.

Lemma sched_step_reached i ms gs c :
  reached ms gs c ->
  exists c' ms' gs', sched_step uuid i c = Some c' /\ reached ms' gs' c' /\
    advance ms gs ms' gs'.
Proof.
  intros H. destruct i as [|[|j]].
  - destruct (main_step _ _ _ H) as (c' & ms' & Hs & Hr & Hl & He).
    exists c', ms', gs. split_and!; try done. unfold advance. split_and!; auto; lia.
  - destruct (spawned ms) eqn:Hsp.
    + destruct (goroutine_step _ _ _ H Hsp) as (c' & gs' & Hs & Hr & Hl & Hf).
      exists c', ms, gs'. split_and!; try done. unfold advance. split_and!; auto; lia.
    + exists c, ms, gs. split_and!; auto using advance_refl. apply (idle_step ms gs); auto.
  - exists c, ms, gs. split_and!; auto using advance_refl.
    apply (idle_step ms gs); auto. right; lia.
Qed.

Lemma exec_reached sched : forall ms gs c,
  reached ms gs c ->
  exists c' ms' gs', exec uuid sched c = Some c' /\ reached ms' gs' c' /\
    advance ms gs ms' gs'.
Proof.
  induction sched as [|i sched IH]; intros ms gs c H.
  - exists c, ms, gs. split_and!; auto using advance_refl.
  - destruct (sched_step_reached i _ _ _ H) as (c1 & ms1 & gs1 & Hs & Hr & Ha).
    destruct (IH _ _ _ Hr) as (c2 & ms2 & gs2 & He & Hr2 & Ha2).
    exists c2, ms2, gs2. cbn [exec]. rewrite Hs. split_and!; eauto using advance_trans.
Qed.

Lemma exec_app {A} (s1 s2 : list nat) (c : @config St A) :
  exec uuid (s1 ++ s2) c = exec uuid s1 c ≫= exec uuid s2.
Proof.
  revert c. induction s1 as [|i s1 IH]; intros c; cbn; [done|].
  destruct (sched_step uuid i c); cbn; auto.
Qed.

Lemma run_main_thread n : forall ms gs c,
  reached ms gs c -> m_left ms <= n ->
  exists c' ms', exec uuid (repeat 0 n) c = Some c' /\ reached ms' gs c' /\ m_left ms' = 0.
Proof.
  induction n as [|n IH]; intros ms gs c H Hn.
  - exists c, ms. cbn. split_and!; auto. lia.
  - destruct (main_step _ _ _ H) as (c1 & ms1 & Hs & Hr & Hl & _).
    destruct (IH ms1 gs c1 Hr) as (c2 & ms2 & He & Hr2 & Hl2); [lia|].
    exists c2, ms2. cbn [repeat exec]. rewrite Hs. auto.
Qed.

Lemma run_goroutine n : forall ms gs c,
  reached ms gs c -> spawned ms = true -> g_left gs <= n ->
  exists c' gs', exec uuid (repeat 1 n) c = Some c' /\ reached ms gs' c' /\ g_left gs' = 0.
Proof.
  induction n as [|n IH]; intros ms gs c H Hsp Hn.
  - exists c, gs. cbn. split_and!; auto. lia.
  - destruct (goroutine_step _ _ _ H Hsp) as (c1 & gs1 & Hs & Hr & Hl & _).
    destruct (IH ms gs1 c1 Hr Hsp) as (c2 & gs2 & He & Hr2 & Hl2); [lia|].
    exists c2, gs2. cbn [repeat exec]. rewrite Hs. auto.
Qed.

Lemma reached_complete ms gs c :
  reached ms gs c -> (complete c <-> m_left ms = 0 /\ g_left gs = 0).
Proof.
  intros (_ & Hgs & Hm & Hp & _). unfold complete. rewrite Hm, Hp. split.
  - intros [Hf Hg]. destruct ms; try done. cbn in Hg. split; [done|].
    apply Forall_cons in Hg as [Hg _]. by destruct gs.
  - intros [Hm0 Hg0]. destruct ms; try (cbn in Hm0; lia). cbn. split; [done|].
    apply Forall_cons. split; [|done]. destruct gs; cbn in Hg0; try lia; done.
Qed.

Lemma g_rec_facts gs :
  g_ok gs ->
  ID (g_rec gs) = new_id /\
  status_consistent (g_rec gs) /\
  (FinalStatus (g_rec gs) <> StatusEmpty -> g_rec gs = terminal_record) /\
  (g_left gs <= 2 -> g_rec gs = terminal_record) /\
  (g_written gs <> [] -> g_rec gs = terminal_record) /\
  (Error (g_rec gs) <> "" ->
     exists e, action tt = Some e /\ Error (g_rec gs) = message e /\
       ActiveStatus (g_rec gs) = StatusStopped).
Proof.
  intros Hok. unfold terminal_record, status_consistent.
  destruct gs; cbn in *; rewrite ?Hok; split_and!; try done; try lia; eauto.
Qed.

Lemma terminal_record_facts :
  ID terminal_record = new_id /\
  ActiveStatus terminal_record = StatusStopped /\
  FinalStatus terminal_record <> StatusEmpty /\
  (forall e, action tt = Some e ->
     FinalStatus terminal_record = StatusFailed /\ Error terminal_record = message e) /\
  (action tt = None ->
     FinalStatus terminal_record = StatusSucceeded /\ Error terminal_record = "").
Proof.
  unfold terminal_record. destruct (action tt) as [e|]; cbn; split_and!; try done.
  by intros ? [= ->].
Qed.

Lemma g_written_facts gs :
  g_written gs = [] \/ exists r, g_written gs = [EvSet (g_rec gs) r].
Proof. destruct gs; cbn; eauto. Qed.

Lemma events_ok_elem ms gs evs ev :
  events_ok ms gs evs -> g_ok gs -> m_ok ms -> ev ∈ evs ->
  exists gs' r, g_ok gs' /\ ev = EvSet (g_rec gs') r.
Proof.
  intros Hev Hg Hm Hin.
  assert (Hin' : ev ∈ m_written ms ++ g_written gs).
  { destruct Hev as [-> | [-> _]]; [done|].
    apply elem_of_app in Hin. apply elem_of_app. tauto. }
  apply elem_of_app in Hin' as [Hin' | Hin'].
  - destruct ms; cbn in *; try by apply elem_of_nil in Hin'.
    apply list_elem_of_singleton in Hin' as ->. eauto.
  - destruct (g_written_facts gs) as [Hnil | [r Hr]].
    + rewrite Hnil in Hin'. by apply elem_of_nil in Hin'.
    + rewrite Hr in Hin'. apply list_elem_of_singleton in Hin' as ->. eauto.
Qed.

Lemma reached_heap ms gs c t :
  reached ms gs c -> heap (world c) !! new_loc = Some t ->
  t = g_rec gs /\ allocated ms = true.
Proof.
  intros (_ & _ & _ & _ & Hh & _) Hl. rewrite Hh in Hl. unfold new_loc in Hl.
  destruct (allocated ms).
  - rewrite heap_new in Hl. by simplify_eq.
  - apply lookup_lt_Some in Hl. lia.
Qed.

Lemma reached_heap_allocated ms gs c :
  reached ms gs c -> allocated ms = true ->
  heap (world c) = heap w0 ++ [g_rec gs] /\ heap (world c) !! new_loc = Some (g_rec gs).
Proof.
  intros (_ & _ & _ & _ & Hh & _) Ha. rewrite Ha in Hh. rewrite Hh.
  split; [done|]. apply heap_new.
Qed.

(** Every schedule runs, and the configuration it leads to is one of the
    stages. *)
Lemma exec_Create sched :
  exists c ms gs, exec uuid sched Create_start = Some c /\ reached ms gs c.
Proof.
  destruct (exec_reached sched _ _ _ reached_start) as (c & ms & gs & He & Hr & _).
  eauto.
Qed.

Lemma exec_Create_inv sched c :
  exec uuid sched Create_start = Some c -> exists ms gs, reached ms gs c.
Proof.
  intros He. destruct (exec_Create sched) as (c' & ms & gs & He' & Hr).
  rewrite He in He'. simplify_eq. eauto.
Qed.

(** In a complete run two calls were made on the Storage, both writes under
    the identifier drawn, and the last of them wrote the terminal record. *)
Lemma complete_last_write ms gs c evs :
  reached ms gs c -> complete c -> events (world c) = events w0 ++ evs ->
  heap (world c) !! new_loc = Some terminal_record /\
  exists t1 r1 r, evs = [EvSet t1 r1; EvSet terminal_record r] /\ ID t1 = new_id.
Proof.
  intros Hr Hc He.
  apply (reached_complete _ _ _ Hr) in Hc as [Hm0 Hg0].
  destruct Hr as ([Hgok Hmok] & _ & _ & _ & Hh & _ & (evs' & He' & Hev) & _).
  rewrite He' in He. apply app_inv_head in He. subst evs'.
  destruct (g_rec_facts gs Hgok) as (Hid & _ & _ & Hterm & _).
  rewrite <- (Hterm ltac:(lia)).
  destruct ms; cbn in Hm0; try lia. cbn in Hh, Hmok.
  destruct (g_rec_facts gs0 Hmok) as (Hid0 & _).
  assert (Hw : exists rg, g_written gs = [EvSet (g_rec gs) rg]).
  { destruct gs; cbn in Hg0; try lia; cbn; eauto. }
  destruct Hw as [rg Hw]. split.
  - rewrite Hh. apply heap_new.
  - destruct Hev as [-> | [-> Hrec]]; rewrite Hw; cbn.
    + by exists (g_rec gs0), r, rg.
    + exists (g_rec gs), rg, r. rewrite (Hrec gs0 r eq_refl); [done|]. by rewrite Hw.
Qed.

(** When the caller runs on its own, before the goroutine takes a step,
    [Create] persists the record as allocated. *)
Lemma Create_caller_first :
  let sr := Storage_Set (store w0) initial_record in
  exec uuid [0; 0; 0; 0] Create_start =
  Some (mkConfig (Ret (persisted_result maskAny new_loc sr.2))
          [Create_goroutine maskAny action new_loc]
          (mkWorld (heap w0 ++ [initial_record]) sr.1 (S (issued w0)) (logged w0)
             (events w0 ++ [EvSet initial_record sr.2]) (clock w0) (coins w0) (lag w0) (flips w0))).
Proof.
  intros sr.
  set (w1 := with_issued (S (issued w0)) w0).
  set (w2 := with_heap (heap w0 ++ [initial_record]) w1).
  assert (H1 : sched_step uuid 0 Create_start = Some (mkConfig (m_prog MNamed) [] w1))
    by reflexivity.
  assert (H2 : sched_step uuid 0 (mkConfig (m_prog MNamed) [] w1)
               = Some (mkConfig (m_prog MAlloc) [] w2)) by reflexivity.
  assert (H3 : sched_step uuid 0 (mkConfig (m_prog MAlloc) [] w2)
               = Some (mkConfig (m_prog MPersist) [g_prog GRun] w2)) by reflexivity.
  cbn [exec]. rewrite H1, H2, H3.
  cbn [sched_step main world m_prog persist_and_return PersistState mbind prog_bind
       bind perform thread_step sem_op pool].
  replace (heap w2 !! new_loc) with (Some initial_record)
    by (symmetry; apply heap_new).
  cbn. fold sr. destruct sr as [s' [e|]]; reflexivity.
Qed.

(** The record of a stage is the record as allocated, the record after the
    first assignment of a marking method, the record after the second
    assignment of [MarkAsFailedWithError], or the terminal record. *)
Lemma g_rec_shape gs :
  g_ok gs ->
  g_rec gs = initial_record \/
  g_rec gs = mkTask StatusStopped "" StatusEmpty new_id \/
  (exists e, action tt = Some e /\
     g_rec gs = mkTask StatusStopped (message e) StatusEmpty new_id) \/
  g_rec gs = terminal_record.
Proof.
  unfold terminal_record, initial_record.
  destruct gs; cbn; intros Hok; try rewrite Hok; auto 6.
  right; right; left. eauto.
Qed.

(** C4, as the code has it.  [Create] draws an identifier no earlier call
    has drawn, allocates the record with [ActiveStatus = Started] and
    [FinalStatus] empty, starts the goroutine and then hands the Storage the
    task object as it is at that moment.  When the caller runs before the
    goroutine that is the record as allocated; when the goroutine has run
    the action and made its first assignment by then, the record written has
    [ActiveStatus = Stopped]; under every schedule it is the record as
    allocated, a record the goroutine has marked in part, or the terminal
    record.  Whatever the goroutine has done, [Create] returns the pointer
    to the task object when the Storage accepted the write and an error (and
    no record) when it refused it, and under every schedule the caller,
    given its turns, returns. *)
Theorem Create_returns_new_record (sched : list nat) :
  (exists c4 r,
     exec uuid [0; 0; 0; 0] Create_start = Some c4 /\
     heap (world c4) = heap w0 ++ [mkTask StatusStarted "" StatusEmpty new_id] /\
     events (world c4) =
       events w0 ++ [EvSet (mkTask StatusStarted "" StatusEmpty new_id) r] /\
     main c4 = Ret (persisted_result maskAny new_loc r) /\
     pool c4 = [Create_goroutine maskAny action new_loc]) /\
  (exists c2 c6 r,
     exec uuid [0; 0] Create_start = Some c2 /\
     heap (world c2) = heap w0 ++ [mkTask StatusStarted "" StatusEmpty new_id] /\
     events (world c2) = events w0 /\
     exec uuid [0; 1; 1; 0] c2 = Some c6 /\
     heap (world c6) = heap w0 ++ [mkTask StatusStopped "" StatusEmpty new_id] /\
     events (world c6) =
       events w0 ++ [EvSet (mkTask StatusStopped "" StatusEmpty new_id) r] /\
     main c6 = Ret (persisted_result maskAny new_loc r)) /\
  (Inj (=) (=) uuid -> forall k, k < issued w0 -> uuid k <> new_id) /\
  exists c,
    exec uuid sched Create_start = Some c /\
    (exists c' result, exec uuid (repeat 0 4) c = Some c' /\ main c' = Ret result) /\
    forall result, main c = Ret result ->
      exists t r evs,
        events (world c) = events w0 ++ evs /\ EvSet t r ∈ evs /\ ID t = new_id /\
        (t = mkTask StatusStarted "" StatusEmpty new_id \/
         t = mkTask StatusStopped "" StatusEmpty new_id \/
         (exists e, action tt = Some e /\
            t = mkTask StatusStopped (message e) StatusEmpty new_id) \/
         t = terminal_record) /\
        heap w0 !! new_loc = None /\
        (exists t', heap (world c) !! new_loc = Some t' /\ ID t' = new_id) /\
        issued (world c) = S (issued w0) /\
        match r with
        | None => result = (Some new_loc, None)
        | Some e => result = (None, Some (maskAny (maskAny e)))
        end.
Proof.
  split_and!.
  - eexists _, _. split; [apply Create_caller_first|]. done.
  - set (w1 := with_issued (S (issued w0)) w0).
    set (w2 := with_heap (heap w0 ++ [mkTask StatusStarted "" StatusEmpty new_id]) w1).
    set (w3 := with_heap (heap w0 ++ [mkTask StatusStopped "" StatusEmpty new_id]) w1).
    set (m := persist_and_return new_loc).
    set (g1 := match action tt with
               | Some e => g_prog (GFail0 e)
               | None => g_prog GSucc0
               end).
    set (g2 := match action tt with
               | Some e => g_prog (GFail1 e)
               | None => g_prog GSucc1
               end).
    assert (H0 : exec uuid [0; 0] Create_start = Some (mkConfig (m_prog MAlloc) [] w2))
      by reflexivity.
    assert (H1 : sched_step uuid 0 (mkConfig (m_prog MAlloc) [] w2)
                 = Some (mkConfig m [g_prog GRun] w2)) by reflexivity.
    assert (H2 : sched_step uuid 1 (mkConfig m [g_prog GRun] w2)
                 = Some (mkConfig m [g1] w2)).
    { unfold g1. cbn. by destruct (action tt). }
    assert (H3 : sched_step uuid 1 (mkConfig m [g1] w2) = Some (mkConfig m [g2] w3)).
    { unfold g1, g2. destruct (action tt); cbn; unfold assign; cbn; unfold new_loc;
        rewrite heap_new; cbn; by rewrite heap_new_insert. }
    destruct (Storage_Set (store w0) (mkTask StatusStopped "" StatusEmpty new_id))
      as [s' r] eqn:Hset.
    assert (H4 : sched_step uuid 0 (mkConfig m [g2] w3)
                 = Some (mkConfig (Ret (persisted_result maskAny new_loc r)) [g2]
                           (with_store s' (EvSet (mkTask StatusStopped "" StatusEmpty new_id) r)
                              w3))).
    { cbn. unfold new_loc. rewrite heap_new. cbn. rewrite Hset. by destruct r. }
    eexists _, _, r. split; [exact H0|]. split; [done|]. split; [done|]. split.
    { cbn [exec]. rewrite H1, H2, H3, H4. reflexivity. }
    done.
  - intros Hinj k Hk Heq. apply Hinj in Heq. lia.
  - destruct (exec_Create sched) as (c & ms & gs & He & Hr).
    exists c. split; [done|]. split.
    { destruct (run_main_thread 4 ms gs c Hr) as (c1 & ms1 & He1 & Hr1 & Hm0).
      { destruct ms; cbn; lia. }
      destruct Hr1 as (_ & _ & Hm1 & _).
      destruct ms1; cbn in Hm0; try lia. eauto. }
    intros result Hres.
    pose proof Hr as ([Hgok Hmok] & _ & Hm & _ & Hh & Hi & (evs & Hev & Hok) & _).
    rewrite Hm in Hres.
    destruct ms as [| | | |gs1 r]; try discriminate. cbn in *. simplify_eq.
    destruct (g_rec_facts gs1 Hmok) as (Hid1 & _ & Hterm1 & _).
    destruct (g_rec_facts gs Hgok) as (Hid & _).
    exists (g_rec gs1), r, evs. split_and!; auto.
    + destruct Hok as [-> | [-> _]]; cbn; set_solver.
    + by apply g_rec_shape.
    + apply lookup_ge_None. unfold new_loc. lia.
    + exists (g_rec gs). split; [|done]. rewrite Hh. apply heap_new.
    + by destruct r.
Qed.

(** From any configuration a schedule leads to, letting the goroutine run
    ends it. *)
Lemma goroutine_finishes ms gs c :
  reached ms gs c -> spawned ms = true ->
  exists c' gs', exec uuid (repeat 1 6) c = Some c' /\ reached ms gs' c' /\
    g_left gs' = 0.
Proof.
  intros Hr Hsp. apply (run_goroutine 6 ms gs c Hr Hsp). destruct gs; cbn; lia.
Qed.


(** With [Create] and its goroutine alone at work on a task, [FinalStatus]
    is written once: a record whose [FinalStatus] is set is the terminal
    record and stays as it is under every further schedule, and a complete
    run ends with the terminal record. *)
Lemma Create_settles (sched1 sched2 : list nat) c1 c2 :
  exec uuid sched1 Create_start = Some c1 ->
  exec uuid sched2 c1 = Some c2 ->
  (forall t1, heap (world c1) !! new_loc = Some t1 ->
     FinalStatus t1 <> StatusEmpty ->
     t1 = terminal_record /\ heap (world c2) !! new_loc = Some t1) /\
  (complete c1 -> heap (world c1) !! new_loc = Some terminal_record).
Proof.
  intros He1 He2.
  destruct (exec_Create_inv _ _ He1) as (ms & gs & Hr).
  split.
  - intros t1 Hh Hf.
    destruct (reached_heap _ _ _ _ Hr Hh) as [-> Hal].
    destruct (exec_reached sched2 _ _ _ Hr) as (c2' & ms' & gs' & He2' & Hr' & Hadv).
    rewrite He2 in He2'. simplify_eq.
    destruct Hadv as (Hml & _ & Hrec & _).
    pose proof Hr as ([Hgok _] & _).
    destruct (g_rec_facts gs Hgok) as (_ & _ & Hterm & _).
    split; [by apply Hterm|].
    rewrite <- (Hrec Hf).
    apply (reached_heap_allocated _ _ _ Hr').
    apply allocated_left. apply allocated_left in Hal. lia.
  - intros Hc. pose proof Hr as (_ & _ & _ & _ & _ & _ & (evs & Hev & _) & _).
    by destruct (complete_last_write _ _ _ _ Hr Hc Hev) as (Hh & _).
Qed.

(** Under every schedule the task record and every record handed to the
    Storage keep the status invariant, carry the identifier drawn, and have
    an [Error] text only when the action failed, the text of its error. *)
Lemma Create_records (sched : list nat) c :
  exec uuid sched Create_start = Some c ->
  exists evs,
    events (world c) = events w0 ++ evs /\
    replay (store w0) evs (store (world c)) /\
    (heap (world c) = heap w0 \/ exists t, heap (world c) = heap w0 ++ [t]) /\
    forall t,
      (heap (world c) !! new_loc = Some t \/ exists r, EvSet t r ∈ evs) ->
      ID t = new_id /\ status_consistent t /\
      (FinalStatus t <> StatusEmpty -> t = terminal_record) /\
      (Error t <> "" ->
         exists e, action tt = Some e /\ Error t = message e /\
           ActiveStatus t = StatusStopped).
Proof.
  intros He.
  destruct (exec_Create_inv _ _ He) as (ms & gs & Hr).
  pose proof Hr as ([Hgok Hmok] & _ & _ & _ & Hh & _ & (evs & Hev & Hok) & _).
  exists evs. split; [done|]. split.
  { destruct (exec_replay _ _ _ _ He) as (evs' & Hev' & Hrep). cbn in Hev', Hrep.
    rewrite Hev in Hev'. apply app_inv_head in Hev'. by subst. }
  split.
  { rewrite Hh. destruct (allocated ms); eauto. }
  intros t [Hl | [r Hin]].
  - destruct (reached_heap _ _ _ _ Hr Hl) as [-> _].
    destruct (g_rec_facts gs Hgok) as (? & ? & ? & _ & _ & ?). auto.
  - destruct (events_ok_elem _ _ _ _ Hok Hgok Hmok Hin) as (gs' & r' & Hok' & [= -> ->]).
    destruct (g_rec_facts gs' Hok') as (? & ? & ? & _ & _ & ?). auto.
Qed.

(** From wherever a schedule has led, letting the caller and then the
    goroutine run ends both. *)
Lemma Create_completes (sched : list nat) c :
  exec uuid sched Create_start = Some c ->
  exists c', exec uuid (repeat 0 4 ++ repeat 1 6) c = Some c' /\ complete c'.
Proof.
  intros He. destruct (exec_Create_inv _ _ He) as (ms & gs & Hr).
  destruct (run_main_thread 4 ms gs c Hr) as (c1 & ms1 & He1 & Hr1 & Hm0).
  { destruct ms; cbn; lia. }
  assert (Hsp : spawned ms1 = true) by (apply spawned_left; lia).
  destruct (goroutine_finishes _ _ _ Hr1 Hsp) as (c2 & gs2 & He2 & Hr2 & Hg0).
  exists c2. split.
  - rewrite exec_app, He1. done.
  - by apply (reached_complete _ _ _ Hr2).
Qed.

End CreateFacts.

(** ** The methods that mark a task *)

Section Marking.

Context {St : Type} `{!Storage St}.
Variable maskAny : error -> error.
Variable uuid : nat -> string.

Implicit Types (w : @World St) (p : loc) (t : Task).

Lemma insert_lookup_other (h : list Task) p q t :
  q <> p -> <[p := t]> h !! q = h !! q.
Proof. intros Hne. by apply list_lookup_insert_ne. Qed.

(** C5.  On a task object [*p], [MarkAsFailedWithError p err] leaves the
    object stopped and failed with the text of [err] (its identifier and
    every other object as they were), hands exactly that record to the
    Storage, and returns [p] when the Storage accepted it and the masked
    error otherwise; a Storage that accepted it gives the record back. *)
Theorem MarkAsFailedWithError_spec p t err w :
  heap w !! p = Some t ->
  let t' := mkTask StatusStopped (message err) StatusFailed (ID t) in
  let sr := Storage_Set (store w) t' in
  exists result w',
    run uuid (MarkAsFailedWithError maskAny p err) w = Some (result, w', []) /\
    heap w' !! p = Some t' /\
    (forall q, q <> p -> heap w' !! q = heap w !! q) /\
    store w' = sr.1 /\
    events w' = events w ++ [EvSet t' sr.2] /\
    match sr.2 with
    | None => result = (Some p, None)
    | Some e => result = (None, Some (maskAny (maskAny e)))
    end /\
    (StorageLaws St -> sr.2 = None -> Storage_Get (store w') (ID t) = inl t').
Proof.
  intros Hp t' sr.
  eexists _, _. split; [by apply run_MarkAsFailedWithError|].
  fold t'. fold sr. cbn. split_and!; auto.
  - by eapply insert_lookup_heap.
  - intros q Hq. by apply insert_lookup_other.
  - by destruct sr.2.
  - intros Hlaws Hnone. apply (get_after_set (store w) t').
    fold sr. rewrite <- Hnone. by destruct sr.
Qed.

(** C6.  On a task object [*p], [MarkAsSucceeded p] leaves the object
    stopped and succeeded (its identifier, its [Error] text and every other
    object as they were), hands exactly that record to the Storage, and
    returns [p] when the Storage accepted it and the masked error
    otherwise; a Storage that accepted it gives the record back. *)
Theorem MarkAsSucceeded_spec p t w :
  heap w !! p = Some t ->
  let t' := mkTask StatusStopped (Error t) StatusSucceeded (ID t) in
  let sr := Storage_Set (store w) t' in
  exists result w',
    run uuid (MarkAsSucceeded maskAny p) w = Some (result, w', []) /\
    heap w' !! p = Some t' /\
    (forall q, q <> p -> heap w' !! q = heap w !! q) /\
    store w' = sr.1 /\
    events w' = events w ++ [EvSet t' sr.2] /\
    match sr.2 with
    | None => result = (Some p, None)
    | Some e => result = (None, Some (maskAny (maskAny e)))
    end /\
    (StorageLaws St -> sr.2 = None -> Storage_Get (store w') (ID t) = inl t').
Proof.
  intros Hp t' sr.
  eexists _, _. split; [by apply run_MarkAsSucceeded|].
  fold t'. fold sr. cbn. split_and!; auto.
  - by eapply insert_lookup_heap.
  - intros q Hq. by apply insert_lookup_other.
  - by destruct sr.2.
  - intros Hlaws Hnone. apply (get_after_set (store w) t').
    fold sr. rewrite <- Hnone. by destruct sr.
Qed.

(** C10.  When the Storage refuses the write, both marking methods return no
    record and the masked error, and the task object keeps the terminal
    values assigned before the write.  When it accepts, the pointer returned
    is the pointer given: the heap has as many objects as before and the
    only call made on the Storage is the write. *)
Theorem marking_is_in_place p t err w :
  heap w !! p = Some t ->
  let ts := mkTask StatusStopped (Error t) StatusSucceeded (ID t) in
  let tf := mkTask StatusStopped (message err) StatusFailed (ID t) in
  (forall s' e, Storage_Set (store w) ts = (s', Some e) ->
     exists w', run uuid (MarkAsSucceeded maskAny p) w
                = Some ((None, Some (maskAny (maskAny e))), w', []) /\
       heap w' !! p = Some ts) /\
  (forall s' e, Storage_Set (store w) tf = (s', Some e) ->
     exists w', run uuid (MarkAsFailedWithError maskAny p err) w
                = Some ((None, Some (maskAny (maskAny e))), w', []) /\
       heap w' !! p = Some tf) /\
  (forall s', Storage_Set (store w) ts = (s', None) ->
     exists w', run uuid (MarkAsSucceeded maskAny p) w = Some ((Some p, None), w', []) /\
       heap w' !! p = Some ts /\ length (heap w') = length (heap w) /\
       events w' = events w ++ [EvSet ts None]) /\
  (forall s', Storage_Set (store w) tf = (s', None) ->
     exists w', run uuid (MarkAsFailedWithError maskAny p err) w = Some ((Some p, None), w', []) /\
       heap w' !! p = Some tf /\ length (heap w') = length (heap w) /\
       events w' = events w ++ [EvSet tf None]).
Proof.
  intros Hp ts tf.
  pose proof (run_MarkAsSucceeded maskAny uuid p t w Hp) as Hs.
  pose proof (run_MarkAsFailedWithError maskAny uuid p t err w Hp) as Hf.
  cbn zeta in Hs, Hf. fold ts in Hs. fold tf in Hf.
  split_and!; [intros s' e Hset | intros s' e Hset | intros s' Hset | intros s' Hset].
  - rewrite Hset in Hs. eexists. split; [apply Hs|]. cbn. by eapply insert_lookup_heap.
  - rewrite Hset in Hf. eexists. split; [apply Hf|]. cbn. by eapply insert_lookup_heap.
  - rewrite Hset in Hs. eexists. split; [apply Hs|]. cbn.
    split_and!; [by eapply insert_lookup_heap | by rewrite length_insert | done].
  - rewrite Hset in Hf. eexists. split; [apply Hf|]. cbn.
    split_and!; [by eapply insert_lookup_heap | by rewrite length_insert | done].
Qed.

(** C8.  With a Storage that keeps its contract, a record written by
    [PersistState] is the record [FetchState] returns for its identifier
    when nothing was written in between. *)
Theorem PersistState_FetchState_roundtrip `{!StorageLaws St} p t w w1 :
  heap w !! p = Some t ->
  run uuid (PersistState maskAny p) w = Some (None, w1, []) ->
  exists q w2,
    run uuid (FetchState maskAny (ID t)) w1 = Some ((Some q, None), w2, []) /\
    heap w2 !! q = Some t /\
    store w2 = store w1.
Proof.
  intros Hp Hrun. rewrite (run_PersistState _ _ _ _ _ Hp) in Hrun.
  destruct (Storage_Set (store w) t) as [s' r] eqn:Hset. cbn in Hrun.
  destruct r as [e|]; [discriminate|]. simplify_eq.
  rewrite run_FetchState. cbn.
  rewrite (get_after_set _ _ _ Hset).
  eexists _, _. split; [reflexivity|]. cbn. split; [apply heap_new | done].
Qed.

End Marking.

(** ** Waiting for the final status *)

Section Waiting.

Context {St : Type} `{!Storage St}.
Variable maskAny : error -> error.
Variable uuid : nat -> string.
Variable WaitSleep : Z.

Implicit Types (w : @World St) (p : loc) (t : Task).

(** What one turn of the loop does, by the case [select] takes and the
    answer of the Storage. *)
Lemma run_WaitForFinalStatus_turn taskID closer w :
  run uuid (WaitForFinalStatus_turn maskAny WaitSleep taskID closer) w =
  let sel := select closer WaitSleep w in
  match sel.1 with
  | CloserCase => Some (Some (None, None), sel.2, [])
  | TimerCase =>
      let r := Storage_Get (store w) taskID in
      let w1 := with_store (store w) (EvGet taskID r) sel.2 in
      match r with
      | inr e => Some (Some (None, Some (maskAny (maskAny e))), w1, [])
      | inl t =>
          Some (if HasFinalStatus t then Some (Some (length (heap w)), None) else None,
                with_heap (heap w ++ [t]) w1, [])
      end
  end.
Proof.
  destruct (select_frame closer WaitSleep w) as (Hh & Hs & He).
  cbn. destruct (select closer WaitSleep w) as [c w1]. cbn in *.
  destruct c; [reflexivity|]. cbn. rewrite Hs.
  destruct (Storage_Get (store w) taskID) as [t|e]; cbn; [|reflexivity].
  rewrite heap_new. cbn. rewrite Hh.
  destruct (HasFinalStatus t); reflexivity.
Qed.

Lemma HasFinalStatus_true t : HasFinalStatus t = true <-> FinalStatus t <> StatusEmpty.
Proof. unfold HasFinalStatus. by rewrite bool_decide_eq_true. Qed.

Lemma HasFinalStatus_false t : HasFinalStatus t = false <-> FinalStatus t = StatusEmpty.
Proof.
  unfold HasFinalStatus. rewrite bool_decide_eq_false.
  destruct (FinalStatus t); naive_solver.
Qed.

(** The three ways out of the loop. *)
Lemma WaitForFinalStatus_returns others : forall taskID closer w r w',
  WaitForFinalStatus maskAny uuid WaitSleep others taskID closer w = Some (Some r, w') ->
  r = (None, None) \/
  (exists p t, r = (Some p, None) /\ heap w' !! p = Some t /\
     FinalStatus t <> StatusEmpty /\ last (events w') = Some (EvGet taskID (inl t))) \/
  (exists e, r = (None, Some (maskAny (maskAny e))) /\
     last (events w') = Some (EvGet taskID (inr e))).
Proof.
  induction others as [|f others IH]; intros taskID closer w r w'; cbn [WaitForFinalStatus].
  { discriminate. }
  rewrite run_WaitForFinalStatus_turn. cbn zeta.
  destruct (select_frame closer WaitSleep (interfere f w)) as (Hh & Hs & He).
  destruct (select closer WaitSleep (interfere f w)) as [c w1]. cbn [fst snd] in *.
  destruct c.
  - intros [= <- <-]. by left.
  - destruct (Storage_Get (store (interfere f w)) taskID) as [t|e] eqn:Hget.
    + destruct (HasFinalStatus t) eqn:Hfin.
      * intros [= <- <-]. right; left. exists (length (heap (interfere f w))), t.
        split_and!; [done|apply heap_new|by apply HasFinalStatus_true|].
        cbn. apply last_snoc.
      * apply IH.
    + intros [= <- <-]. right; right. exists e. split; [done|]. cbn. apply last_snoc.
Qed.

(** A turn in which the closer is ready before the timer expires, and the
    goroutine looks at the channels before it expires, returns nil, nil,
    whatever the Storage holds. *)
Lemma WaitForFinalStatus_closer_first f others taskID c w :
  (Z.max (clock w) c < clock w + Z.max 0 WaitSleep)%Z ->
  (Z.max 0 (lag w (flips w)) < Z.max 0 WaitSleep)%Z ->
  WaitForFinalStatus maskAny uuid WaitSleep (f :: others) taskID (Some c) w =
  Some (Some (None, None), with_clock (Z.max (clock w) c) (S (flips w)) (interfere f w)).
Proof.
  intros Hlt Hlag. cbn [WaitForFinalStatus]. rewrite run_WaitForFinalStatus_turn. cbn zeta.
  unfold select. cbn [clock interfere flips lag].
  destruct (Z.ltb_spec (Z.max (clock w) c) (clock w + Z.max 0 WaitSleep)); [|lia].
  destruct (Z.ltb_spec (clock w + Z.max 0 (lag w (flips w)))
              (clock w + Z.max 0 WaitSleep)); [|lia].
  reflexivity.
Qed.

(** When the closer has fired and the timer has expired by the time the
    goroutine looks at the channels, the coin decides. *)
Lemma select_both_ready c w :
  (c <= clock w)%Z ->
  (Z.max 0 WaitSleep <= Z.max 0 (lag w (flips w)))%Z ->
  (select (Some c) WaitSleep w).1 = if coins w (flips w) then CloserCase else TimerCase.
Proof.
  intros Hc Hlag. unfold select.
  destruct (Z.ltb_spec (clock w + Z.max 0 (lag w (flips w)))
              (clock w + Z.max 0 WaitSleep)); [lia|].
  rewrite andb_false_r.
  destruct (Z.ltb_spec (clock w + Z.max 0 (lag w (flips w))) (Z.max (clock w) c)); [lia|].
  rewrite andb_false_r. by destruct (coins w (flips w)).
Qed.

(** With a poll interval that is positive and longer than the goroutine
    takes to look at the channels, a closer that fires at [c] ends the wait
    with nil, nil as long as the task stays pending: [n] turns are enough
    once [n] exceeds the number of poll intervals left until [c]. *)
Lemma WaitForFinalStatus_gives_up taskID c : forall others w,
  (0 < WaitSleep)%Z ->
  (forall n, (lag w n < WaitSleep)%Z) ->
  Forall (fun f => forall s, pending taskID s -> pending taskID (f s)) others ->
  pending taskID (store w) ->
  Z.to_nat ((c - clock w) / WaitSleep) < length others ->
  exists w', WaitForFinalStatus maskAny uuid WaitSleep others taskID (Some c) w
             = Some (Some (None, None), w').
Proof.
  intros others. induction others as [|f others IH]; intros w Hpos Hlag Hall Hpend Hlen.
  { cbn in Hlen. lia. }
  apply Forall_cons in Hall as [Hf Hall].
  assert (Hlook : (Z.max 0 (lag w (flips w)) < Z.max 0 WaitSleep)%Z).
  { specialize (Hlag (flips w)). lia. }
  destruct (Z.ltb_spec (Z.max (clock w) c) (clock w + Z.max 0 WaitSleep)) as [Hlt|Hge].
  { eexists. by apply WaitForFinalStatus_closer_first. }
  cbn [WaitForFinalStatus]. rewrite run_WaitForFinalStatus_turn. cbn zeta.
  destruct (Hf _ Hpend) as (t & Hget & Hfin).
  apply HasFinalStatus_false in Hfin.
  unfold select. cbn [clock interfere flips store coins lag].
  set (timer := (clock w + Z.max 0 WaitSleep)%Z).
  assert (Hnext : forall w1, clock w1 = timer -> store w1 = f (store w) -> lag w1 = lag w ->
    exists w', WaitForFinalStatus maskAny uuid WaitSleep others taskID (Some c) w1
               = Some (Some (None, None), w')).
  { intros w1 Hc Hs Hl. apply IH; auto.
    - intros n. by rewrite Hl.
    - rewrite Hs. exists t. split; [done|]. by apply HasFinalStatus_false.
    - rewrite Hc. unfold timer. cbn in Hlen.
      replace (c - (clock w + Z.max 0 WaitSleep))%Z
        with (c - clock w + -1 * WaitSleep)%Z by lia.
      rewrite Z.div_add by lia.
      assert (1 <= (c - clock w) / WaitSleep)%Z; [|lia].
      apply Z.div_le_lower_bound; lia. }
  destruct (_ && _); [eauto|].
  destruct (_ && _).
  { cbn. rewrite Hget, Hfin. by apply Hnext. }
  destruct (coins w (flips w)); cbn; [eauto|].
  rewrite Hget, Hfin. by apply Hnext.
Qed.

(** C1, as the code has it.  A call that returns does so in one of three
    ways: nil, nil; a record whose [FinalStatus] is set, as the last fetch
    read it, and no error; or no record and the masked error of the last
    fetch.  A turn in which [select] takes the closer case returns nil, nil;
    a turn woken by the timer returns the error of a failed fetch, the
    record of a fetch whose [FinalStatus] is set, and goes round again
    otherwise.  A closer that has already fired when the call is made gives
    nil, nil, whatever the identifier and the Storage, when [WaitSleep] is
    positive and longer than the goroutine takes to look at the channels;
    when the timer has expired by then, both cases are ready and the coin
    decides, so the turn may go to the timer.  Under the same condition on
    [WaitSleep], a closer that fires later gives nil, nil as long as the
    task stays pending. *)
Theorem WaitForFinalStatus_outcomes :
  (forall others taskID closer w r w',
     WaitForFinalStatus maskAny uuid WaitSleep others taskID closer w = Some (Some r, w') ->
     r = (None, None) \/
     (exists p t, r = (Some p, None) /\ heap w' !! p = Some t /\
        FinalStatus t <> StatusEmpty /\ last (events w') = Some (EvGet taskID (inl t))) \/
     (exists e, r = (None, Some (maskAny (maskAny e))) /\
        last (events w') = Some (EvGet taskID (inr e)))) /\
  (forall f others taskID closer w,
     let sel := select closer WaitSleep (interfere f w) in
     match sel.1 with
     | CloserCase =>
         WaitForFinalStatus maskAny uuid WaitSleep (f :: others) taskID closer w
         = Some (Some (None, None), sel.2)
     | TimerCase =>
         match Storage_Get (f (store w)) taskID with
         | inr e =>
             exists w', WaitForFinalStatus maskAny uuid WaitSleep (f :: others) taskID closer w
                        = Some (Some (None, Some (maskAny (maskAny e))), w')
         | inl t =>
             if decide (FinalStatus t = StatusEmpty)
             then exists w', heap w' = heap w ++ [t] /\
                    WaitForFinalStatus maskAny uuid WaitSleep (f :: others) taskID closer w
                    = WaitForFinalStatus maskAny uuid WaitSleep others taskID closer w'
             else exists w', heap w' !! length (heap w) = Some t /\
                    WaitForFinalStatus maskAny uuid WaitSleep (f :: others) taskID closer w
                    = Some (Some (Some (length (heap w)), None), w')
         end
     end) /\
  (forall f others taskID c w,
     (0 < WaitSleep)%Z -> (c <= clock w)%Z -> (lag w (flips w) < WaitSleep)%Z ->
     exists w', WaitForFinalStatus maskAny uuid WaitSleep (f :: others) taskID (Some c) w
                = Some (Some (None, None), w')) /\
  (forall f c w,
     (c <= clock w)%Z -> (Z.max 0 WaitSleep <= Z.max 0 (lag w (flips w)))%Z ->
     (select (Some c) WaitSleep (interfere f w)).1
     = if coins w (flips w) then CloserCase else TimerCase) /\
  (forall others taskID c w,
     (0 < WaitSleep)%Z -> (forall n, (lag w n < WaitSleep)%Z) ->
     Forall (fun f => forall s, pending taskID s -> pending taskID (f s)) others ->
     pending taskID (store w) ->
     Z.to_nat ((c - clock w) / WaitSleep) < length others ->
     exists w', WaitForFinalStatus maskAny uuid WaitSleep others taskID (Some c) w
                = Some (Some (None, None), w')).
Proof.
  split_and!.
  - intros others. apply WaitForFinalStatus_returns.
  - intros f others taskID closer w. cbn zeta. cbn [WaitForFinalStatus].
    rewrite run_WaitForFinalStatus_turn. cbn zeta.
    destruct (select_frame closer WaitSleep (interfere f w)) as (Hh & _).
    destruct (select closer WaitSleep (interfere f w)) as [c w1]. cbn [fst snd] in *.
    destruct c; [done|]. cbn [store interfere heap] in *.
    destruct (Storage_Get (f (store w)) taskID) as [t|e]; [|eauto].
    destruct (decide (FinalStatus t = StatusEmpty)) as [Hfin|Hfin].
    + apply HasFinalStatus_false in Hfin. rewrite Hfin. eexists. split; [|reflexivity].
      done.
    + apply HasFinalStatus_true in Hfin. rewrite Hfin. eexists. split; [|reflexivity].
      cbn. apply heap_new.
  - intros f others taskID c w Hpos Hc Hlag. eexists.
    apply WaitForFinalStatus_closer_first; lia.
  - intros f c w Hc Hlag. by apply (select_both_ready c (interfere f w)).
  - intros others taskID c w. apply WaitForFinalStatus_gives_up.
Qed.

End Waiting.

(** ** The invariants of the data model *)

Section Invariants.

Context {St : Type} `{!Storage St}.
Variable maskAny : error -> error.
Variable uuid : nat -> string.
Variable WaitSleep : Z.

Implicit Types (w : @World St) (p : loc) (t : Task).

Lemma heap_consistent_insert h p t :
  heap_consistent h -> status_consistent t -> heap_consistent (<[p := t]> h).
Proof.
  intros Hh Ht q u Hq. apply list_lookup_insert_Some in Hq as [(_ & <- & _) | [_ Hq]]; eauto.
Qed.

Lemma heap_consistent_snoc h t :
  heap_consistent h -> status_consistent t -> heap_consistent (h ++ [t]).
Proof.
  intros Hh Ht q u Hq. apply lookup_snoc_Some in Hq as [[_ Hq] | [_ <-]]; eauto.
Qed.

Lemma store_consistent_set `{!StorageLaws St} s t s' r :
  Storage_Set s t = (s', r) -> status_consistent t ->
  store_consistent s -> store_consistent s'.
Proof.
  intros Hset Ht Hs taskID u Hget.
  destruct (get_keeps_records _ _ _ _ _ _ Hset Hget) as [-> | Hold]; eauto.
Qed.

Lemma MarkAsSucceeded_consistent `{!StorageLaws St} p w r w' :
  world_consistent w ->
  run uuid (MarkAsSucceeded maskAny p) w = Some (r, w', []) -> world_consistent w'.
Proof.
  intros [Hh Hs] Hrun. destruct (heap w !! p) as [t|] eqn:Hp.
  - rewrite (run_MarkAsSucceeded _ _ _ _ _ Hp) in Hrun. cbn zeta in Hrun.
    destruct (Storage_Set (store w) _) as [s' res] eqn:Hset. simplify_eq. split; cbn.
    + by apply heap_consistent_insert.
    + by eapply store_consistent_set.
  - cbn in Hrun. unfold assign in Hrun. by rewrite Hp in Hrun.
Qed.

Lemma MarkAsFailedWithError_consistent `{!StorageLaws St} p err w r w' :
  world_consistent w ->
  run uuid (MarkAsFailedWithError maskAny p err) w = Some (r, w', []) -> world_consistent w'.
Proof.
  intros [Hh Hs] Hrun. destruct (heap w !! p) as [t|] eqn:Hp.
  - rewrite (run_MarkAsFailedWithError _ _ _ _ _ _ Hp) in Hrun. cbn zeta in Hrun.
    destruct (Storage_Set (store w) _) as [s' res] eqn:Hset. simplify_eq. split; cbn.
    + by apply heap_consistent_insert.
    + by eapply store_consistent_set.
  - cbn in Hrun. unfold assign in Hrun. by rewrite Hp in Hrun.
Qed.

Lemma PersistState_consistent `{!StorageLaws St} p w r w' :
  world_consistent w ->
  run uuid (PersistState maskAny p) w = Some (r, w', []) -> world_consistent w'.
Proof.
  intros [Hh Hs] Hrun. destruct (heap w !! p) as [t|] eqn:Hp.
  - rewrite (run_PersistState _ _ _ _ _ Hp) in Hrun.
    destruct (Storage_Set (store w) t) as [s' res] eqn:Hset. simplify_eq. split; cbn.
    + done.
    + eapply store_consistent_set; eauto.
  - cbn in Hrun. by rewrite Hp in Hrun.
Qed.

Lemma FetchState_consistent taskID w r w' :
  world_consistent w ->
  run uuid (FetchState maskAny taskID) w = Some (r, w', []) -> world_consistent w'.
Proof.
  intros [Hh Hs] Hrun. rewrite run_FetchState in Hrun. cbn zeta in Hrun.
  destruct (Storage_Get (store w) taskID) as [t|e] eqn:Hget; simplify_eq; split; cbn; auto.
  apply heap_consistent_snoc; eauto.
Qed.

Lemma WaitForFinalStatus_turn_consistent taskID closer w r w' :
  world_consistent w ->
  run uuid (WaitForFinalStatus_turn maskAny WaitSleep taskID closer) w = Some (r, w', []) ->
  world_consistent w'.
Proof.
  intros [Hh Hs] Hrun. rewrite run_WaitForFinalStatus_turn in Hrun. cbn zeta in Hrun.
  destruct (select_frame closer WaitSleep w) as (Hh' & Hs' & _).
  destruct (select closer WaitSleep w) as [c w1]. cbn [fst snd] in *.
  destruct c.
  - simplify_eq. split; [by rewrite Hh' | by rewrite Hs'].
  - destruct (Storage_Get (store w) taskID) as [t|e] eqn:Hget; simplify_eq; split; cbn; auto.
    + apply heap_consistent_snoc; eauto.
    + by rewrite Hh'.
Qed.

Lemma Create_consistent `{!StorageLaws St} action w sched c :
  world_consistent w ->
  exec uuid sched (Create_start maskAny action w) = Some c -> world_consistent (world c).
Proof.
  intros [Hh Hs] He.
  destruct (Create_records _ _ _ _ _ _ He) as (evs & Hev & Hrep & Hheap & Hrec).
  split.
  - destruct Hheap as [-> | [t Heq]]; [done|].
    rewrite Heq. apply heap_consistent_snoc; [done|].
    apply (Hrec t). left. rewrite Heq. apply heap_new.
  - unfold store_consistent.
    eapply (replay_keeps_records status_consistent); [done| |done].
    intros t r Hin. apply (Hrec t). eauto.
Qed.

(** C3.  The record either marking method leaves in the task object, which
    is the record it hands to the Storage, is stopped and has its
    [FinalStatus] set.  Under every schedule of [Create] and its goroutine,
    the task object and every record handed to the Storage are stopped
    whenever their [FinalStatus] is set.  With a Storage that keeps its
    contract, every operation of the service takes a world in which all task
    objects and all stored records satisfy this to another such world. *)
Theorem status_invariant_kept :
  (forall p t w r w',
     heap w !! p = Some t ->
     run uuid (MarkAsSucceeded maskAny p) w = Some (r, w', []) ->
     exists t' res, heap w' !! p = Some t' /\ events w' = events w ++ [EvSet t' res] /\
       FinalStatus t' = StatusSucceeded /\ ActiveStatus t' = StatusStopped) /\
  (forall p t err w r w',
     heap w !! p = Some t ->
     run uuid (MarkAsFailedWithError maskAny p err) w = Some (r, w', []) ->
     exists t' res, heap w' !! p = Some t' /\ events w' = events w ++ [EvSet t' res] /\
       FinalStatus t' = StatusFailed /\ ActiveStatus t' = StatusStopped) /\
  (forall action w sched c,
     exec uuid sched (Create_start maskAny action w) = Some c ->
     exists evs, events (world c) = events w ++ evs /\
       forall t, (heap (world c) !! new_loc w = Some t \/ exists r, EvSet t r ∈ evs) ->
         FinalStatus t <> StatusEmpty -> ActiveStatus t = StatusStopped) /\
  (StorageLaws St -> forall w,
     world_consistent w ->
     (forall p r w', run uuid (MarkAsSucceeded maskAny p) w = Some (r, w', []) ->
        world_consistent w') /\
     (forall p err r w',
        run uuid (MarkAsFailedWithError maskAny p err) w = Some (r, w', []) ->
        world_consistent w') /\
     (forall p r w', run uuid (PersistState maskAny p) w = Some (r, w', []) ->
        world_consistent w') /\
     (forall taskID r w', run uuid (FetchState maskAny taskID) w = Some (r, w', []) ->
        world_consistent w') /\
     (forall taskID closer r w',
        run uuid (WaitForFinalStatus_turn maskAny WaitSleep taskID closer) w
        = Some (r, w', []) -> world_consistent w') /\
     (forall action sched c,
        exec uuid sched (Create_start maskAny action w) = Some c ->
        world_consistent (world c))).
Proof.
  split_and!.
  - intros p t w r w' Hp Hrun.
    rewrite (run_MarkAsSucceeded _ _ _ _ _ Hp) in Hrun. cbn zeta in Hrun. simplify_eq.
    eexists _, _. cbn. split_and!; [by eapply insert_lookup_heap|done..].
  - intros p t err w r w' Hp Hrun.
    rewrite (run_MarkAsFailedWithError _ _ _ _ _ _ Hp) in Hrun. cbn zeta in Hrun. simplify_eq.
    eexists _, _. cbn. split_and!; [by eapply insert_lookup_heap|done..].
  - intros action w sched c He.
    destruct (Create_records _ _ _ _ _ _ He) as (evs & Hev & _ & _ & Hrec).
    exists evs. split; [done|]. intros t Ht. by destruct (Hrec t Ht) as (_ & ? & _).
  - intros Hlaws w Hw. split_and!.
    + intros p r w'. by apply MarkAsSucceeded_consistent.
    + intros p err r w'. by apply MarkAsFailedWithError_consistent.
    + intros p r w'. by apply PersistState_consistent.
    + intros taskID r w'. by apply FetchState_consistent.
    + intros taskID closer r w'. by apply WaitForFinalStatus_turn_consistent.
    + intros action sched c. by apply Create_consistent.
Qed.

Lemma terminal_record_status action w :
  FinalStatus (terminal_record uuid action w) =
    match action tt with Some _ => StatusFailed | None => StatusSucceeded end /\
  ActiveStatus (terminal_record uuid action w) = StatusStopped /\
  Error (terminal_record uuid action w) =
    (match action tt with Some e => message e | None => "" end).
Proof. unfold terminal_record. by destruct (action tt). Qed.

(** C2, as the code has it.  For a task made by [Create] and marked by its
    goroutine alone, [FinalStatus] is empty or the record is the terminal
    record, failed when the action returned an error and succeeded when it
    did not; once [FinalStatus] is set the record stays as it is under every
    further schedule; every run can be carried to its end, where the record
    is the terminal one.  The marking methods themselves set [FinalStatus]
    whatever it was before. *)
Theorem FinalStatus_set_once_by_Create :
  (forall action w sched1 sched2 c1 c2 t1,
     exec uuid sched1 (Create_start maskAny action w) = Some c1 ->
     exec uuid sched2 c1 = Some c2 ->
     heap (world c1) !! new_loc w = Some t1 ->
     (FinalStatus t1 = StatusEmpty \/ t1 = terminal_record uuid action w) /\
     (FinalStatus t1 <> StatusEmpty -> heap (world c2) !! new_loc w = Some t1)) /\
  (forall action w,
     FinalStatus (terminal_record uuid action w)
     = match action tt with Some _ => StatusFailed | None => StatusSucceeded end) /\
  (forall action w sched c,
     exec uuid sched (Create_start maskAny action w) = Some c ->
     exists c', exec uuid (repeat 0 4 ++ repeat 1 6) c = Some c' /\ complete c' /\
       heap (world c') !! new_loc w = Some (terminal_record uuid action w)) /\
  (forall p t w r w',
     heap w !! p = Some t ->
     run uuid (MarkAsSucceeded maskAny p) w = Some (r, w', []) ->
     FinalStatus <$> heap w' !! p = Some StatusSucceeded) /\
  (forall p t err w r w',
     heap w !! p = Some t ->
     run uuid (MarkAsFailedWithError maskAny p err) w = Some (r, w', []) ->
     FinalStatus <$> heap w' !! p = Some StatusFailed).
Proof.
  split_and!.
  - intros action w sched1 sched2 c1 c2 t1 He1 He2 Hl.
    destruct (Create_settles _ _ _ _ _ _ _ _ He1 He2) as [Hset _].
    destruct (decide (FinalStatus t1 = StatusEmpty)) as [Hf|Hf].
    + split; [by left | done].
    + destruct (Hset t1 Hl Hf) as [-> ?]. split; [by right | done].
  - intros action w. apply terminal_record_status.
  - intros action w sched c He.
    destruct (Create_completes _ _ _ _ _ _ He) as (c' & He' & Hc).
    exists c'. split_and!; try done.
    assert (Hall : exec uuid (sched ++ repeat 0 4 ++ repeat 1 6)
                     (Create_start maskAny action w) = Some c').
    { rewrite exec_app, He. done. }
    by destruct (Create_settles _ _ _ _ _ [] _ _ Hall eq_refl) as [_ Hfin]; auto.
  - intros p t w r w' Hp Hrun.
    rewrite (run_MarkAsSucceeded _ _ _ _ _ Hp) in Hrun. cbn zeta in Hrun. simplify_eq.
    cbn. by rewrite (insert_lookup_heap _ _ _ _ Hp).
  - intros p t err w r w' Hp Hrun.
    rewrite (run_MarkAsFailedWithError _ _ _ _ _ _ Hp) in Hrun. cbn zeta in Hrun. simplify_eq.
    cbn. by rewrite (insert_lookup_heap _ _ _ _ Hp).
Qed.

(** C7, as the code has it.  For a task made by [Create] and marked by its
    goroutine alone, under every schedule the task object and every record
    handed to the Storage have an empty [Error] when [FinalStatus] is
    Succeeded, the text of the action's error when it is Failed, and a
    non-empty [Error] only when the action failed; at the end of a run a
    non-empty [Error] comes with [FinalStatus] Failed.  [MarkAsSucceeded]
    leaves [Error] as it finds it, and [MarkAsFailedWithError] sets it to the
    text of the error given. *)
Theorem Error_text_comes_from_failure :
  (forall action w sched c,
     exec uuid sched (Create_start maskAny action w) = Some c ->
     exists evs, events (world c) = events w ++ evs /\
       forall t, (heap (world c) !! new_loc w = Some t \/ exists r, EvSet t r ∈ evs) ->
         (FinalStatus t = StatusSucceeded -> Error t = "") /\
         (FinalStatus t = StatusFailed ->
            exists e, action tt = Some e /\ Error t = message e) /\
         (Error t <> "" ->
            exists e, action tt = Some e /\ Error t = message e /\
              ActiveStatus t = StatusStopped)) /\
  (forall action w sched c t,
     exec uuid sched (Create_start maskAny action w) = Some c ->
     complete c -> heap (world c) !! new_loc w = Some t ->
     Error t <> "" -> FinalStatus t = StatusFailed) /\
  (forall p t w r w',
     heap w !! p = Some t ->
     run uuid (MarkAsSucceeded maskAny p) w = Some (r, w', []) ->
     Error <$> heap w' !! p = Some (Error t)) /\
  (forall p t err w r w',
     heap w !! p = Some t ->
     run uuid (MarkAsFailedWithError maskAny p err) w = Some (r, w', []) ->
     Error <$> heap w' !! p = Some (message err)).
Proof.
  split_and!.
  - intros action w sched c He.
    destruct (Create_records _ _ _ _ _ _ He) as (evs & Hev & _ & _ & Hrec).
    exists evs. split; [done|]. intros t Ht.
    destruct (Hrec t Ht) as (_ & _ & Hterm & Herr).
    destruct (terminal_record_status action w) as (Hfs & _ & Hes).
    split_and!; [| |done].
    + intros Hf. rewrite Hterm in * by (by rewrite Hf).
      rewrite Hes. rewrite Hfs in Hf. by destruct (action tt).
    + intros Hf. rewrite Hterm in * by (by rewrite Hf).
      rewrite Hes. rewrite Hfs in Hf. destruct (action tt); [eauto|done].
  - intros action w sched c t He Hc Hl Herr.
    destruct (Create_settles _ _ _ _ _ [] _ _ He eq_refl) as [_ Hfin].
    rewrite (Hfin Hc) in Hl. simplify_eq.
    destruct (terminal_record_status action w) as (Hfs & _ & Hes).
    rewrite Hfs. rewrite Hes in Herr. by destruct (action tt).
  - intros p t w r w' Hp Hrun.
    rewrite (run_MarkAsSucceeded _ _ _ _ _ Hp) in Hrun. cbn zeta in Hrun. simplify_eq.
    cbn. by rewrite (insert_lookup_heap _ _ _ _ Hp).
  - intros p t err w r w' Hp Hrun.
    rewrite (run_MarkAsFailedWithError _ _ _ _ _ _ Hp) in Hrun. cbn zeta in Hrun. simplify_eq.
    cbn. by rewrite (insert_lookup_heap _ _ _ _ Hp).
Qed.

End Invariants.

(** ** The backends keep the contract *)

#[global] Instance MemoryStorage_laws : StorageLaws (gmap string Task).
Proof.
  split.
  - intros s t s' [= <-]. cbn. by rewrite lookup_insert_eq.
  - intros s t s' r taskID u [= <- <-]. cbn.
    destruct (decide (ID t = taskID)) as [<- | Hne].
    + rewrite lookup_insert_eq. intros [= <-]. by left.
    + rewrite lookup_insert_ne by done. by right.
Qed.

#[global] Instance FlakyStorage_laws : StorageLaws FlakyStore.
Proof.
  split.
  - intros [m script] t s'. cbn. destruct script as [|[|] script]; intros [= <-]; cbn;
      by rewrite lookup_insert_eq.
  - intros [m script] t s' r taskID u. cbn.
    destruct script as [|[|] script]; intros [= <- <-]; cbn; auto.
    all: destruct (decide (ID t = taskID)) as [<- | Hne];
      [rewrite lookup_insert_eq; intros [= <-]; by left
      |rewrite lookup_insert_ne by done; by right].
Qed.

(** ** The theorems at work *)

Lemma MarkAsFailedWithError_spec_witness :
  heap w_mem !! 0 = Some task1 /\
  exists result w',
    run uuid_of_count (MarkAsFailedWithError maskNone 0 disk_full) w_mem
    = Some (result, w', []) /\
    heap w' !! 0 = Some task1_failed /\
    events w' = [EvSet task1_failed None] /\
    result = (Some 0, None) /\
    Storage_Get (store w') "t1" = inl task1_failed.
Proof.
  split; [reflexivity|].
  destruct (MarkAsFailedWithError_spec maskNone uuid_of_count 0 task1 disk_full w_mem eq_refl)
    as (result & w' & Hrun & Hh & _ & _ & Hev & Hres & Hget).
  exists result, w'. split_and!; [exact Hrun|exact Hh|exact Hev|exact Hres|].
  exact (Hget _ eq_refl).
Defined.

Lemma MarkAsSucceeded_spec_witness :
  heap w_mem !! 0 = Some task1 /\
  exists result w',
    run uuid_of_count (MarkAsSucceeded maskNone 0) w_mem = Some (result, w', []) /\
    heap w' !! 0 = Some task1_succeeded /\
    events w' = [EvSet task1_succeeded None] /\
    result = (Some 0, None) /\
    Storage_Get (store w') "t1" = inl task1_succeeded.
Proof.
  split; [reflexivity|].
  destruct (MarkAsSucceeded_spec maskNone uuid_of_count 0 task1 w_mem eq_refl)
    as (result & w' & Hrun & Hh & _ & _ & Hev & Hres & Hget).
  exists result, w'. split_and!; [exact Hrun|exact Hh|exact Hev|exact Hres|].
  exact (Hget _ eq_refl).
Defined.

Lemma marking_is_in_place_witness :
  heap w_flaky !! 0 = Some task1 /\
  Storage_Set (store w_flaky) task1_succeeded = ((∅, []), Some refused) /\
  Storage_Set (store w_flaky) task1_failed = ((∅, []), Some refused) /\
  (exists w', run uuid_of_count (MarkAsSucceeded maskNone 0) w_flaky
              = Some ((None, Some refused), w', []) /\
     heap w' !! 0 = Some task1_succeeded) /\
  (exists w', run uuid_of_count (MarkAsFailedWithError maskNone 0 disk_full) w_flaky
              = Some ((None, Some refused), w', []) /\
     heap w' !! 0 = Some task1_failed) /\
  (exists w', run uuid_of_count (MarkAsSucceeded maskNone 0) w_mem
              = Some ((Some 0, None), w', []) /\
     heap w' !! 0 = Some task1_succeeded /\ length (heap w') = 1 /\
     events w' = [EvSet task1_succeeded None]).
Proof.
  split; [reflexivity|]. split; [reflexivity|]. split; [reflexivity|].
  destruct (marking_is_in_place maskNone uuid_of_count 0 task1 disk_full w_flaky eq_refl)
    as (Hs & Hf & _ & _).
  destruct (marking_is_in_place maskNone uuid_of_count 0 task1 disk_full w_mem eq_refl)
    as (_ & _ & Hs' & _).
  split_and!.
  - exact (Hs _ _ eq_refl).
  - exact (Hf _ _ eq_refl).
  - exact (Hs' _ eq_refl).
Defined.

Lemma PersistState_FetchState_roundtrip_witness :
  heap w_mem !! 0 = Some task1 /\
  exists w1,
    run uuid_of_count (PersistState maskNone 0) w_mem = Some (None, w1, []) /\
    exists q w2,
      run uuid_of_count (FetchState maskNone "t1") w1 = Some ((Some q, None), w2, []) /\
      heap w2 !! q = Some task1 /\ store w2 = store w1.
Proof.
  split; [reflexivity|]. eexists. split; [reflexivity|].
  exact (PersistState_FetchState_roundtrip maskNone uuid_of_count 0 task1 w_mem _
           eq_refl eq_refl).
Defined.

Lemma w_mem_consistent : world_consistent w_mem.
Proof.
  split.
  - intros [|p] t; cbn; [|done]. intros [= <-] Hne. by destruct Hne.
  - intros taskID t. cbn. by rewrite lookup_empty.
Qed.

Lemma WaitForFinalStatus_outcomes_witness :
  (0 < DefaultWaitSleep)%Z /\ (0 <= clock w_done)%Z /\
  Storage_Get (store w_done) "t1" = inl task1_succeeded /\
  (exists w',
     WaitForFinalStatus maskNone uuid_of_count DefaultWaitSleep [unchanged] "t1"
       (Some 0%Z) w_done
     = Some (Some (None, None), w')) /\
  pending "t1" (store w_waiting) /\
  (exists w',
     WaitForFinalStatus maskNone uuid_of_count DefaultWaitSleep
       [unchanged; unchanged; unchanged] "t1" (Some 2500000000%Z) w_waiting
     = Some (Some (None, None), w')).
Proof.
  assert (Hpend : pending "t1" (store w_waiting)).
  { exists task1. split; reflexivity. }
  split; [reflexivity|]. split; [discriminate|]. split; [reflexivity|].
  destruct (WaitForFinalStatus_outcomes (St := gmap string Task) maskNone uuid_of_count
              DefaultWaitSleep) as (_ & _ & Hfired & _ & Hlater).
  split; [apply Hfired; [reflexivity | discriminate | reflexivity]|].
  split; [exact Hpend|].
  apply Hlater; [reflexivity | intros n; reflexivity | | exact Hpend | vm_compute; lia].
  repeat constructor; intros s Hs; exact Hs.
Defined.

(** With no time between two polls the timer is ready as soon as the closer
    is, and the turn may go to the timer: a closer that has fired does not
    stop the call from returning the record of a task that is done. *)
Lemma WaitForFinalStatus_zero_sleep_polls :
  (0 <= clock w_done)%Z /\
  exists w',
    WaitForFinalStatus maskNone uuid_of_count 0%Z [unchanged] "t1" (Some 0%Z) w_done
    = Some (Some (Some 0, None), w') /\
    heap w' !! 0 = Some task1_succeeded.
Proof.
  split; [discriminate|]. eexists. split; reflexivity.
Qed.

(** The same with a nanosecond between two polls: the timer has expired by
    the time the goroutine looks at the channels. *)
Example WaitForFinalStatus_short_sleep_polls :
  (0 <= clock w_done_late)%Z /\
  exists w',
    WaitForFinalStatus maskNone uuid_of_count 1%Z [unchanged] "t1" (Some 0%Z) w_done_late
    = Some (Some (Some 0, None), w') /\
    heap w' !! 0 = Some task1_succeeded.
Proof.
  split; [discriminate|]. eexists. split; reflexivity.
Qed.

Lemma status_invariant_kept_witness :
  world_consistent w_mem /\
  (exists r w' t' res,
     run uuid_of_count (MarkAsFailedWithError maskNone 0 disk_full) w_mem
     = Some (r, w', []) /\
     world_consistent w' /\
     heap w' !! 0 = Some t' /\ events w' = events w_mem ++ [EvSet t' res] /\
     FinalStatus t' = StatusFailed /\ ActiveStatus t' = StatusStopped) /\
  (exists c,
     exec uuid_of_count [0; 0; 0; 1; 1; 1; 0; 1; 1]
       (Create_start maskNone failing w_mem) = Some c /\
     world_consistent (world c)).
Proof.
  destruct (status_invariant_kept (St := gmap string Task) maskNone uuid_of_count
              DefaultWaitSleep) as (_ & Hfail & _ & Hkeep).
  destruct (Hkeep _ w_mem w_mem_consistent) as (_ & Hf & _ & _ & _ & Hc).
  split; [exact w_mem_consistent|]. split.
  - destruct (run uuid_of_count (MarkAsFailedWithError maskNone 0 disk_full) w_mem)
      as [[[r w'] gs]|] eqn:Hrun; [|vm_compute in Hrun; discriminate Hrun].
    assert (Hgs : gs = []) by (vm_compute in Hrun; injection Hrun as _ _ <-; reflexivity).
    subst gs.
    destruct (Hfail 0 task1 disk_full w_mem r w' eq_refl Hrun) as (t' & res & Hh & Hev & H1 & H2).
    exists r, w', t', res. split; [reflexivity|].
    split; [exact (Hf _ _ _ _ Hrun)|]. split_and!; [exact Hh|exact Hev|exact H1|exact H2].
  - destruct (exec uuid_of_count [0; 0; 0; 1; 1; 1; 0; 1; 1]
                (Create_start maskNone failing w_mem)) as [c|] eqn:He;
      [|vm_compute in He; discriminate He].
    exists c. split; [reflexivity|]. exact (Hc failing _ c He).
Defined.

Lemma Create_returns_new_record_witness :
  (forall k, k < 3 -> uuid_of_count k <> "3") /\
  exists c,
    exec uuid_of_count [0; 0; 0; 0] (Create_start maskNone succeeding w_three) = Some c /\
    main c = Ret (Some 0, None) /\
    exists t r evs,
      events (world c) = evs /\ EvSet t r ∈ evs /\ ID t = "3" /\
      (exists t', heap (world c) !! 0 = Some t' /\ ID t' = "3") /\
      issued (world c) = 4 /\
      match r with
      | None => (Some 0, None) = (Some 0, @None error)
      | Some e => (Some 0, None) = (None, Some e)
      end.
Proof.
  destruct (Create_returns_new_record maskNone uuid_of_count succeeding w_three [0; 0; 0; 0])
    as (_ & _ & Hfresh & c & He & _ & Hres).
  split; [exact (Hfresh _)|].
  exists c. split; [exact He|].
  assert (Hm : main c = Ret (Some 0, None)).
  { vm_compute in He. injection He as <-. reflexivity. }
  split; [exact Hm|].
  destruct (Hres _ Hm) as (t & r & evs & Hev & Hin & Hid & _ & _ & Hh & Hi & Hr).
  exists t, r, evs. split_and!; [exact Hev|exact Hin|exact Hid|exact Hh|exact Hi|exact Hr].
Defined.

(** The record [Create] hands to the Storage, and returns, is not always
    the record as allocated: when the goroutine has run a failing action and
    marked the task before the caller writes, [Create] persists a record
    with [ActiveStatus = Stopped] and [FinalStatus = Failed]. *)
Lemma Create_persists_a_marked_record :
  exists c,
    exec uuid_of_count [0; 0; 0; 1; 1; 1; 1; 0] (Create_start maskNone failing (world0 ∅))
    = Some c /\
    main c = Ret (Some 0, None) /\
    events (world c) = [EvSet (mkTask StatusStopped "disk full" StatusFailed "0") None] /\
    heap (world c) !! 0 = Some (mkTask StatusStopped "disk full" StatusFailed "0") /\
    Storage_Get (store (world c)) "0"
    = inl (mkTask StatusStopped "disk full" StatusFailed "0").
Proof.
  eexists. split; [vm_compute; reflexivity|]. repeat split.
Qed.


(** The run of the witness above, to its end: [Create] has returned the
    error of the refused write, and the Storage holds the failed task under
    the identifier drawn. *)
Example Create_refused_then_persisted :
  (c ← exec uuid_of_count ([0; 0; 0; 0] ++ repeat 1 6)
         (Create_start maskNone failing (world0 (∅, [true])));
   Some (main c, Storage_Get (store (world c)) "0", events (world c)))
  = Some (Ret (None, Some refused),
          inl (mkTask StatusStopped "disk full" StatusFailed "0"),
          [EvSet (mkTask StatusStarted "" StatusEmpty "0") (Some refused);
           EvSet (mkTask StatusStopped "disk full" StatusFailed "0") None]).
Proof. vm_compute. reflexivity. Qed.

Lemma FinalStatus_set_once_by_Create_witness :
  exists c,
    exec uuid_of_count [0; 0; 0; 1; 1; 1; 1; 1] (Create_start maskNone failing (world0 ∅))
    = Some c /\
    heap (world c) !! 0 = Some (mkTask StatusStopped "disk full" StatusFailed "0") /\
    exists c',
      exec uuid_of_count (repeat 0 4 ++ repeat 1 6) c = Some c' /\ complete c' /\
      heap (world c') !! 0 = Some (mkTask StatusStopped "disk full" StatusFailed "0") /\
      FinalStatus (mkTask StatusStopped "disk full" StatusFailed "0") <> StatusEmpty.
Proof.
  destruct (FinalStatus_set_once_by_Create (St := gmap string Task) maskNone uuid_of_count)
    as (Hkeep & _ & Hend & _).
  destruct (exec uuid_of_count [0; 0; 0; 1; 1; 1; 1; 1]
              (Create_start maskNone failing (world0 ∅))) as [c|] eqn:He;
    [|vm_compute in He; discriminate He].
  assert (Hh : heap (world c) !! 0 = Some (mkTask StatusStopped "disk full" StatusFailed "0")).
  { vm_compute in He. injection He as <-. reflexivity. }
  exists c. split; [reflexivity|]. split; [exact Hh|].
  destruct (Hend failing (world0 ∅) _ c He) as (c' & He' & Hc & _).
  exists c'. split; [exact He'|]. split; [exact Hc|].
  destruct (Hkeep failing (world0 ∅) _ _ c c' _ He He' Hh) as [_ Hstay].
  split; [|discriminate]. apply Hstay. discriminate.
Defined.

(** A task that [Create] made and its goroutine marked as failed is marked as
    succeeded by a later call of [MarkAsSucceeded] on the record [Create]
    returned: [FinalStatus] goes from Failed to Succeeded, in the task object
    and in the Storage. *)
Lemma MarkAsSucceeded_after_Failed :
  exists c r w',
    exec uuid_of_count ([0; 0; 0; 0] ++ repeat 1 6)
      (Create_start maskNone failing (world0 ∅)) = Some c /\
    main c = Ret (Some 0, None) /\
    FinalStatus <$> heap (world c) !! 0 = Some StatusFailed /\
    Storage_Get (store (world c)) "0"
    = inl (mkTask StatusStopped "disk full" StatusFailed "0") /\
    run uuid_of_count (MarkAsSucceeded maskNone 0) (world c) = Some (r, w', []) /\
    r = (Some 0, None) /\
    FinalStatus <$> heap w' !! 0 = Some StatusSucceeded /\
    Storage_Get (store w') "0"
    = inl (mkTask StatusStopped "disk full" StatusSucceeded "0").
Proof.
  eexists _, _, _. split; [vm_compute; reflexivity|].
  split; [reflexivity|]. split; [reflexivity|]. split; [reflexivity|].
  split; [vm_compute; reflexivity|]. repeat split.
Qed.

Lemma Error_text_comes_from_failure_witness :
  (exists r w',
     run uuid_of_count (MarkAsSucceeded maskNone 0) w_mem = Some (r, w', []) /\
     Error <$> heap w' !! 0 = Some (Error task1)) /\
  (exists r w',
     run uuid_of_count (MarkAsFailedWithError maskNone 0 disk_full) w_mem
     = Some (r, w', []) /\
     Error <$> heap w' !! 0 = Some "disk full") /\
  (exists c t,
     exec uuid_of_count ([0; 0; 0; 0] ++ repeat 1 6)
       (Create_start maskNone succeeding (world0 ∅)) = Some c /\
     complete c /\ heap (world c) !! 0 = Some t /\
     FinalStatus t = StatusSucceeded /\ Error t = "").
Proof.
  destruct (Error_text_comes_from_failure (St := gmap string Task) maskNone uuid_of_count)
    as (Hrun & _ & Hs & Hf).
  split_and!.
  - destruct (run uuid_of_count (MarkAsSucceeded maskNone 0) w_mem)
      as [[[r w'] gs]|] eqn:Hr; [|vm_compute in Hr; discriminate Hr].
    assert (Hgs : gs = []) by (vm_compute in Hr; injection Hr as _ _ <-; reflexivity).
    subst gs. exists r, w'. split; [reflexivity|].
    exact (Hs 0 task1 w_mem r w' eq_refl Hr).
  - destruct (run uuid_of_count (MarkAsFailedWithError maskNone 0 disk_full) w_mem)
      as [[[r w'] gs]|] eqn:Hr; [|vm_compute in Hr; discriminate Hr].
    assert (Hgs : gs = []) by (vm_compute in Hr; injection Hr as _ _ <-; reflexivity).
    subst gs. exists r, w'. split; [reflexivity|].
    exact (Hf 0 task1 disk_full w_mem r w' eq_refl Hr).
  - destruct (exec uuid_of_count ([0; 0; 0; 0] ++ repeat 1 6)
                (Create_start maskNone succeeding (world0 ∅))) as [c|] eqn:He;
      [|vm_compute in He; discriminate He].
    assert (Hc : complete c /\
                 heap (world c) !! 0 = Some (mkTask StatusStopped "" StatusSucceeded "0")).
    { vm_compute in He. injection He as <-. split; [|reflexivity].
      split; [exact I | repeat constructor]. }
    destruct Hc as [Hc Hh].
    exists c, (mkTask StatusStopped "" StatusSucceeded "0").
    split; [reflexivity|]. split; [exact Hc|]. split; [exact Hh|]. split; [reflexivity|].
    destruct (Hrun succeeding (world0 ∅) _ c He) as (evs & _ & Hrec).
    destruct (Hrec _ (or_introl Hh)) as (Hsucc & _ & _).
    exact (Hsucc eq_refl).
Defined.

(** A task that [Create] made and its goroutine marked as failed keeps the
    text of the error when [MarkAsSucceeded] is called on it: the record
    returned has [FinalStatus] Succeeded and a non-empty [Error]. *)
Lemma MarkAsSucceeded_keeps_Error :
  exists c r w',
    exec uuid_of_count ([0; 0; 0; 0] ++ repeat 1 6)
      (Create_start maskNone failing (world0 ∅)) = Some c /\
    run uuid_of_count (MarkAsSucceeded maskNone 0) (world c) = Some (r, w', []) /\
    r = (Some 0, None) /\
    heap w' !! 0 = Some (mkTask StatusStopped "disk full" StatusSucceeded "0") /\
    Storage_Get (store w') "0"
    = inl (mkTask StatusStopped "disk full" StatusSucceeded "0").
Proof.
  eexists _, _, _. split; [vm_compute; reflexivity|].
  split; [vm_compute; reflexivity|]. repeat split.
Qed.

(** A schedule in which the caller's write falls between two assignments of
    the goroutine: the record handed to the Storage has the text of the
    error and no [FinalStatus] yet, and that is what a fetch returns until the
    goroutine has done its own write. *)
Example Create_write_between_assignments :
  (c ← exec uuid_of_count [0; 0; 0; 1; 1; 1; 0]
         (Create_start maskNone failing (world0 ∅));
   Some (main c, Storage_Get (store (world c)) "0", events (world c)))
  = Some (Ret (Some 0, None),
          inl (mkTask StatusStopped "disk full" StatusEmpty "0"),
          [EvSet (mkTask StatusStopped "disk full" StatusEmpty "0") None]).
Proof. vm_compute. reflexivity. Qed.

(** * More of the service *)

(** ** Fetching, and marking more than once *)

Section Composition.

Context {St : Type} `{!Storage St}.
Variable maskAny : error -> error.
Variable uuid : nat -> string.
Variable WaitSleep : Z.

Implicit Types (w : @World St) (p : loc) (t : Task).

(** [FetchState] only reads.  It makes one call on the Storage, a [Get] of
    the identifier given, and leaves the Storage and every task object as
    they were.  When the [Get] fails it returns no record and the masked
    error; when it succeeds it returns a pointer to an object that holds the
    record read.  A second fetch right after the first gives the same error
    or an equal record. *)
Theorem FetchState_only_reads taskID w :
  exists result w',
    run uuid (FetchState maskAny taskID) w = Some (result, w', []) /\
    store w' = store w /\
    events w' = events w ++ [EvGet taskID (Storage_Get (store w) taskID)] /\
    (forall q t, heap w !! q = Some t -> heap w' !! q = Some t) /\
    match Storage_Get (store w) taskID with
    | inr e => result = (None, Some (maskAny e))
    | inl t => exists q, result = (Some q, None) /\ heap w' !! q = Some t
    end /\
    exists result2 w2,
      run uuid (FetchState maskAny taskID) w' = Some (result2, w2, []) /\
      result2.2 = result.2 /\
      match result.1, result2.1 with
      | Some q, Some q2 => heap w2 !! q2 = heap w2 !! q /\ is_Some (heap w2 !! q)
      | None, None => True
      | _, _ => False
      end.
Proof.
  pose proof (run_FetchState maskAny uuid taskID w) as H1. cbn zeta in H1.
  destruct (Storage_Get (store w) taskID) as [t|e] eqn:Hget.
  - eexists _, _. split; [exact H1|].
    cbn [heap store events with_heap with_store fst snd]. split_and!; auto.
    + intros q u Hq. by apply lookup_app_l_Some.
    + exists (length (heap w)). split; [done|]. apply heap_new.
    + eexists _, _. rewrite run_FetchState. cbn. rewrite Hget.
      split; [reflexivity|]. cbn. split; [done|].
      rewrite heap_new. rewrite lookup_app_l by (rewrite length_app; cbn; lia).
      rewrite heap_new. eauto.
  - eexists _, _. split; [exact H1|].
    cbn [heap store events with_heap with_store fst snd]. split_and!; auto.
    eexists _, _. rewrite run_FetchState. cbn. rewrite Hget.
    split; [reflexivity|]. done.
Qed.

(** [Create], [FetchState] and the two marking methods return a record or an
    error, never both and never neither; [WaitForFinalStatus] never returns
    both. *)
Theorem record_or_error :
  (forall taskID w r w' gs,
     run uuid (FetchState maskAny taskID) w = Some (r, w', gs) ->
     (r.1 = None <-> r.2 <> None)) /\
  (forall p w r w' gs,
     run uuid (MarkAsSucceeded maskAny p) w = Some (r, w', gs) ->
     (r.1 = None <-> r.2 <> None)) /\
  (forall p err w r w' gs,
     run uuid (MarkAsFailedWithError maskAny p err) w = Some (r, w', gs) ->
     (r.1 = None <-> r.2 <> None)) /\
  (forall action w sched c r,
     exec uuid sched (Create_start maskAny action w) = Some c ->
     main c = Ret r -> (r.1 = None <-> r.2 <> None)) /\
  (forall others taskID closer w r w',
     WaitForFinalStatus maskAny uuid WaitSleep others taskID closer w = Some (Some r, w') ->
     r.1 = None \/ r.2 = None).
Proof.
  assert (Hres : forall p (x : option error),
    (persisted_result maskAny p x).1 = None <-> (persisted_result maskAny p x).2 <> None).
  { intros p [e|]; cbn; split; congruence. }
  split_and!.
  - intros taskID w r w' gs. rewrite run_FetchState. cbn zeta.
    destruct (Storage_Get (store w) taskID); intros Heq; injection Heq as <- _ _; cbn; split; congruence.
  - intros p w r w' gs Hrun. destruct (heap w !! p) as [t|] eqn:Hp.
    + rewrite (run_MarkAsSucceeded _ _ _ _ _ Hp) in Hrun. cbn zeta in Hrun.
      injection Hrun as <- _ _. apply Hres.
    + cbn in Hrun. unfold assign in Hrun. by rewrite Hp in Hrun.
  - intros p err w r w' gs Hrun. destruct (heap w !! p) as [t|] eqn:Hp.
    + rewrite (run_MarkAsFailedWithError _ _ _ _ _ _ Hp) in Hrun. cbn zeta in Hrun.
      injection Hrun as <- _ _. apply Hres.
    + cbn in Hrun. unfold assign in Hrun. by rewrite Hp in Hrun.
  - intros action w sched c r He Hm.
    destruct (exec_Create_inv _ _ _ _ _ _ He) as (ms & gs & Hr).
    destruct Hr as (_ & _ & Hm' & _). rewrite Hm' in Hm.
    destruct ms; try discriminate. cbn in Hm. injection Hm as <-. apply Hres.
  - intros others taskID closer w r w' Hw.
    destruct (WaitForFinalStatus_returns _ _ _ _ _ _ _ _ _ Hw)
      as [-> | [(q & t & -> & _) | (e & -> & _)]]; cbn; auto.
Qed.

(** Marking a task twice.  Either marking method called again right after
    itself leaves the task object as the first call left it and hands the
    same record to the Storage again.  When one follows the other the second
    decides [FinalStatus], and the text of the error stays in both orders. *)
Theorem marking_twice p t err w :
  heap w !! p = Some t ->
  let ts := mkTask StatusStopped (Error t) StatusSucceeded (ID t) in
  let tf := mkTask StatusStopped (message err) StatusFailed (ID t) in
  (exists r1 w1 r2 w2 x,
     run uuid (MarkAsSucceeded maskAny p) w = Some (r1, w1, []) /\
     run uuid (MarkAsSucceeded maskAny p) w1 = Some (r2, w2, []) /\
     heap w1 !! p = Some ts /\ heap w2 = heap w1 /\
     events w2 = events w1 ++ [EvSet ts x]) /\
  (exists r1 w1 r2 w2 x,
     run uuid (MarkAsFailedWithError maskAny p err) w = Some (r1, w1, []) /\
     run uuid (MarkAsFailedWithError maskAny p err) w1 = Some (r2, w2, []) /\
     heap w1 !! p = Some tf /\ heap w2 = heap w1 /\
     events w2 = events w1 ++ [EvSet tf x]) /\
  (exists r1 w1 r2 w2,
     run uuid (MarkAsFailedWithError maskAny p err) w = Some (r1, w1, []) /\
     run uuid (MarkAsSucceeded maskAny p) w1 = Some (r2, w2, []) /\
     heap w2 !! p = Some (mkTask StatusStopped (message err) StatusSucceeded (ID t))) /\
  (exists r1 w1 r2 w2,
     run uuid (MarkAsSucceeded maskAny p) w = Some (r1, w1, []) /\
     run uuid (MarkAsFailedWithError maskAny p err) w1 = Some (r2, w2, []) /\
     heap w2 !! p = Some tf).
Proof.
  intros Hp ts tf.
  pose proof (run_MarkAsSucceeded maskAny uuid p t w Hp) as Hs.
  pose proof (run_MarkAsFailedWithError maskAny uuid p t err w Hp) as Hf.
  cbn zeta in Hs, Hf. fold ts in Hs. fold tf in Hf.
  set (ws := with_store _ _ _) in Hs. set (wf := with_store _ _ _) in Hf.
  assert (Hps : heap ws !! p = Some ts) by (cbn; by eapply insert_lookup_heap).
  assert (Hpf : heap wf !! p = Some tf) by (cbn; by eapply insert_lookup_heap).
  pose proof (run_MarkAsSucceeded maskAny uuid p ts ws Hps) as Hss.
  pose proof (run_MarkAsFailedWithError maskAny uuid p tf err wf Hpf) as Hff.
  pose proof (run_MarkAsSucceeded maskAny uuid p tf wf Hpf) as Hfs.
  pose proof (run_MarkAsFailedWithError maskAny uuid p ts err ws Hps) as Hsf.
  cbn zeta in Hss, Hff, Hfs, Hsf.
  split_and!.
  - eexists _, _, _, _, _. split; [exact Hs|]. split; [exact Hss|].
    split; [exact Hps|]. split; [|reflexivity].
    cbn. rewrite list_insert_insert_eq. done.
  - eexists _, _, _, _, _. split; [exact Hf|]. split; [exact Hff|].
    split; [exact Hpf|]. split; [|reflexivity].
    cbn. rewrite list_insert_insert_eq. done.
  - eexists _, _, _, _. split; [exact Hf|]. split; [exact Hfs|].
    cbn. rewrite list_insert_insert_eq. by eapply insert_lookup_heap.
  - eexists _, _, _, _. split; [exact Hs|]. split; [exact Hsf|].
    cbn. rewrite list_insert_insert_eq. by eapply insert_lookup_heap.
Qed.

End Composition.

(** ** The polls of a wait *)

Section Polling.

Context {St : Type} `{!Storage St}.
Variable maskAny : error -> error.
Variable uuid : nat -> string.
Variable WaitSleep : Z.

Implicit Types (w : @World St) (p : loc) (t : Task) (others : list (St -> St)).

(** What [select] does to the world: it moves the clock and asks the
    runtime.  The timer case leaves the clock at the end of the interval,
    the closer case at the instant the closer was ready.  A goroutine that
    looks at the channels before its timer expires takes the timer case
    only if the closer was not ready before the end of the interval. *)
Lemma select_spec closer w :
  let sel := select closer WaitSleep w in
  heap sel.2 = heap w /\ store sel.2 = store w /\ events sel.2 = events w /\
  logged sel.2 = logged w /\ issued sel.2 = issued w /\ coins sel.2 = coins w /\
  lag sel.2 = lag w /\
  match sel.1 with
  | CloserCase =>
      exists c, closer = Some c /\ clock sel.2 = Z.max (clock w) c
  | TimerCase =>
      clock sel.2 = (clock w + Z.max 0 WaitSleep)%Z /\
      forall c, closer = Some c ->
        (Z.max 0 (lag w (flips w)) < Z.max 0 WaitSleep)%Z ->
        (clock w + Z.max 0 WaitSleep <= Z.max (clock w) c)%Z
  end.
Proof.
  unfold select. destruct closer as [c|]; cbn; [|by split_and!].
  destruct (Z.ltb_spec (Z.max (clock w) c) (clock w + Z.max 0 WaitSleep));
    destruct (Z.ltb_spec (clock w + Z.max 0 (lag w (flips w)))
                (clock w + Z.max 0 WaitSleep));
    destruct (Z.ltb_spec (clock w + Z.max 0 WaitSleep) (Z.max (clock w) c));
    destruct (Z.ltb_spec (clock w + Z.max 0 (lag w (flips w))) (Z.max (clock w) c));
    cbn; try destruct (coins w (flips w)); cbn; split_and!; eauto;
    intros c' [= <-] Hlag; lia.
Qed.

Lemma store_after_cons f others k s :
  store_after (f :: others) (S k) s = store_after others k (f s).
Proof. reflexivity. Qed.

Lemma store_after_0 others s : store_after others 0 s = s.
Proof. unfold store_after. by rewrite take_0. Qed.

Local Arguments store_after : simpl never.

(** The whole of a wait: the result, the polls made, and the world left. *)
Lemma WaitForFinalStatus_run others : forall taskID closer w,
  exists r w' (ts : list Task) (last : list event) k,
    WaitForFinalStatus maskAny uuid WaitSleep others taskID closer w = Some (r, w') /\
    events w' = events w ++ map (fun t => EvGet taskID (inl t)) ts ++ last /\
    Forall (fun t => FinalStatus t = StatusEmpty) ts /\
    (forall i ev, (map (fun t => EvGet taskID (inl t)) ts ++ last) !! i = Some ev ->
       ev = EvGet taskID (Storage_Get (store_after others (S i) (store w)) taskID)) /\
    k <= length others /\ store w' = store_after others k (store w) /\
    logged w' = logged w /\ issued w' = issued w /\ coins w' = coins w /\
    lag w' = lag w /\
    ((forall n, (Z.max 0 (lag w n) < Z.max 0 WaitSleep)%Z) ->
     forall c, closer = Some c -> (clock w' <= Z.max (clock w) c)%Z) /\
    match r with
    | None =>
        last = [] /\ heap w' = heap w ++ ts /\ k = length others /\ length ts = k /\
        clock w' = (clock w + Z.of_nat k * Z.max 0 WaitSleep)%Z
    | Some (None, None) =>
        last = [] /\ heap w' = heap w ++ ts /\ k = S (length ts) /\
        exists c, closer = Some c /\
          clock w' = Z.max (clock w + Z.of_nat (length ts) * Z.max 0 WaitSleep) c
    | Some (Some p, None) =>
        exists t, last = [EvGet taskID (inl t)] /\ FinalStatus t <> StatusEmpty /\
          heap w' = heap w ++ ts ++ [t] /\ p = length (heap w) + length ts /\
          k = S (length ts) /\
          clock w' = (clock w + Z.of_nat k * Z.max 0 WaitSleep)%Z
    | Some (None, Some e) =>
        exists e0, last = [EvGet taskID (inr e0)] /\ e = maskAny (maskAny e0) /\
          heap w' = heap w ++ ts /\ k = S (length ts) /\
          clock w' = (clock w + Z.of_nat k * Z.max 0 WaitSleep)%Z
    | Some (Some _, Some _) => False
    end.
Proof.
  induction others as [|f others IH]; intros taskID closer w; cbn [WaitForFinalStatus].
  { exists None, w, [], [], 0. cbn. rewrite !app_nil_r.
    split_and!; auto; try done; lia. }
  rewrite run_WaitForFinalStatus_turn. cbn zeta.
  pose proof (select_spec closer (interfere f w)) as Hsel. cbn zeta in Hsel.
  destruct (select closer WaitSleep (interfere f w)) as [cs w1]. cbn [fst snd] in *.
  destruct Hsel as (Hh & Hs & He & Hl & Hi & Hc & Hlg & Hcase).
  cbn [interfere heap store events logged issued coins lag clock flips] in *.
  destruct cs.
  - destruct Hcase as (c & -> & Hclk).
    exists (Some (None, None)), w1, [], [], 1. cbn. rewrite !app_nil_r.
    split_and!; auto; try done; try lia.
    + intros _ c' [= <-]. lia.
    + exists c. split; [done|lia].
  - destruct Hcase as (Hclk & Hbound).
    assert (Hb : (forall n, (Z.max 0 (lag w n) < Z.max 0 WaitSleep)%Z) ->
              forall c, closer = Some c ->
                (clock w + Z.max 0 WaitSleep <= Z.max (clock w) c)%Z).
    { intros Hlag c Hcl. by apply Hbound. }
    destruct (Storage_Get (f (store w)) taskID) as [t|e] eqn:Hget.
    + destruct (HasFinalStatus t) eqn:Hfin.
      * apply HasFinalStatus_true in Hfin.
        exists (Some (Some (length (heap w)), None)), (with_heap (heap w ++ [t])
          (with_store (f (store w)) (EvGet taskID (inl t)) w1)), [], [EvGet taskID (inl t)], 1.
        cbn. split_and!; auto; try done; try lia.
        -- by rewrite He.
        -- intros [|i] ev; cbn; [|done]. intros [= <-].
           by rewrite store_after_cons, store_after_0, Hget.
        -- intros Hlag c Hcl. specialize (Hb Hlag c Hcl). lia.
        -- exists t. split_and!; auto; lia.
      * apply HasFinalStatus_false in Hfin.
        set (w2 := with_heap (heap w ++ [t])
          (with_store (f (store w)) (EvGet taskID (inl t)) w1)).
        destruct (IH taskID closer w2)
          as (r & w' & ts & last & k & Hw & Hev & Hpend & Hread & Hk & Hst & Hlgd & His &
              Hco & Hla & Hcb & Hr).
        cbn [w2 with_heap with_store heap store events logged issued coins lag clock] in *.
        exists r, w', (t :: ts), last, (S k).
        split_and!; auto.
        -- rewrite Hev, He. cbn. by rewrite <- app_assoc.
        -- intros [|i] ev; cbn.
           ++ intros [= <-]. by rewrite store_after_cons, store_after_0, Hget.
           ++ intros Hi'. rewrite store_after_cons. by apply Hread.
        -- cbn. lia.
        -- congruence.
        -- congruence.
        -- congruence.
        -- congruence.
        -- intros Hlag c Hcl. specialize (Hb Hlag c Hcl).
           assert (Hlag' : forall n, (Z.max 0 (lag w1 n) < Z.max 0 WaitSleep)%Z).
           { intros n. rewrite Hlg. apply Hlag. }
           specialize (Hcb Hlag' c Hcl). lia.
        -- destruct r as [[[p|] [e|]]|]; cbn [length].
           ++ done.
           ++ destruct Hr as (u & -> & Hu & -> & -> & -> & ->).
              exists u. rewrite length_app, <- app_assoc. cbn. split_and!; auto; lia.
           ++ destruct Hr as (e0 & -> & -> & -> & -> & ->).
              exists e0. rewrite <- app_assoc. cbn. split_and!; auto; lia.
           ++ destruct Hr as (-> & -> & -> & c & -> & ->).
              rewrite <- app_assoc. cbn. split_and!; auto.
              exists c. split; [done|]. lia.
           ++ destruct Hr as (-> & -> & -> & Hlen & ->).
              rewrite <- app_assoc. cbn. split_and!; auto; lia.
    + exists (Some (None, Some (maskAny (maskAny e)))),
        (with_store (f (store w)) (EvGet taskID (inr e)) w1), [], [EvGet taskID (inr e)], 1.
      cbn. split_and!; auto; try done; try lia.
      * by rewrite He.
      * intros [|i] ev; cbn; [|done]. intros [= <-].
        by rewrite store_after_cons, store_after_0, Hget.
      * intros Hlag c Hcl. specialize (Hb Hlag c Hcl). lia.
      * exists e. rewrite app_nil_r. split_and!; auto; lia.
Qed.

Lemma pending_store_after taskID others : forall k s,
  Forall (fun f => forall s, pending taskID s -> pending taskID (f s)) others ->
  pending taskID s -> pending taskID (store_after others k s).
Proof.
  induction others as [|f others IH]; intros [|k] s Hothers Hs;
    rewrite ?store_after_0; try done.
  inversion Hothers as [|? ? Hf Hrest]; subst.
  rewrite store_after_cons. apply IH; auto.
Qed.

(** [WaitForFinalStatus] only reads.  It never panics; the calls it makes on
    the Storage are [Get]s of the identifier given, one per turn woken by the
    timer, each answered from the Storage as the other goroutines have left
    it by then; it writes nothing, logs nothing, draws no identifier and
    touches no task object that was there. *)
Theorem WaitForFinalStatus_only_reads others taskID closer w :
  exists r w' polls k,
    WaitForFinalStatus maskAny uuid WaitSleep others taskID closer w = Some (r, w') /\
    events w' = events w ++ polls /\
    (forall i ev, polls !! i = Some ev ->
       ev = EvGet taskID (Storage_Get (store_after others (S i) (store w)) taskID)) /\
    k <= length others /\ store w' = store_after others k (store w) /\
    logged w' = logged w /\ issued w' = issued w /\
    (forall q t, heap w !! q = Some t -> heap w' !! q = Some t).
Proof.
  destruct (WaitForFinalStatus_run others taskID closer w)
    as (r & w' & ts & last & k & Hw & Hev & Hpend & Hread & Hk & Hst & Hlg & His & _ & _ & _ & Hr).
  exists r, w', (map (fun t => EvGet taskID (inl t)) ts ++ last), k.
  split_and!; auto.
  intros q t Hq.
  assert (Hheap : exists more, heap w' = heap w ++ more).
  { destruct r as [[[p|] [e|]]|]; try done.
    - destruct Hr as (u & _ & _ & -> & _). eauto.
    - destruct Hr as (e0 & _ & _ & -> & _). eauto.
    - destruct Hr as (_ & -> & _). eauto.
    - destruct Hr as (_ & -> & _). eauto. }
  destruct Hheap as (more & ->). by apply lookup_app_l_Some.
Qed.

(** A wait that returns has polled until the answer changed: every poll but
    the last read a record whose [FinalStatus] is empty, and the last turn
    decided.  Nil, nil needs a closer.  A record returned was read by the
    last poll and is what the Storage holds under the identifier when the
    call returns; an error returned is the error of the last poll, masked
    twice. *)
Theorem WaitForFinalStatus_history others taskID closer w r w' :
  WaitForFinalStatus maskAny uuid WaitSleep others taskID closer w = Some (Some r, w') ->
  exists ts last,
    events w' = events w ++ map (fun t => EvGet taskID (inl t)) ts ++ last /\
    Forall (fun t => FinalStatus t = StatusEmpty) ts /\
    length ts < length others /\
    store w' = store_after others (S (length ts)) (store w) /\
    match r with
    | (None, None) => last = [] /\ is_Some closer
    | (Some p, None) =>
        exists t, last = [EvGet taskID (inl t)] /\ FinalStatus t <> StatusEmpty /\
          heap w' !! p = Some t /\ Storage_Get (store w') taskID = inl t
    | (None, Some e) =>
        exists e0, last = [EvGet taskID (inr e0)] /\ e = maskAny (maskAny e0) /\
          Storage_Get (store w') taskID = inr e0
    | (Some _, Some _) => False
    end.
Proof.
  intros Hwait.
  destruct (WaitForFinalStatus_run others taskID closer w)
    as (r0 & w0 & ts & last & k & Hw & Hev & Hpend & Hread & Hk & Hst & _ & _ & _ & _ & _ & Hr).
  rewrite Hwait in Hw. injection Hw as <- <-.
  exists ts, last.
  assert (Hlast : forall ev, last = [ev] ->
            ev = EvGet taskID (Storage_Get (store_after others (S (length ts)) (store w)) taskID)).
  { intros ev ->. apply (Hread (length ts)).
    rewrite lookup_app_r by (rewrite length_map; lia).
    by rewrite length_map, Nat.sub_diag. }
  destruct r as [[p|] [e|]]; try done.
  - destruct Hr as (t & -> & Hfin & Hh & -> & -> & _).
    specialize (Hlast _ eq_refl). injection Hlast as Hlast.
    split_and!; auto; try lia.
    exists t. split_and!; auto.
    + rewrite Hh, app_assoc. rewrite <- length_app. apply heap_new.
    + by rewrite Hst.
  - destruct Hr as (e0 & -> & -> & _ & -> & _).
    specialize (Hlast _ eq_refl). injection Hlast as Hlast.
    split_and!; auto; try lia.
    exists e0. split_and!; auto. by rewrite Hst.
  - destruct Hr as (-> & _ & -> & c & -> & _).
    split_and!; eauto; lia.
Qed.

(** The time a wait takes, on the clock that counts the intervals waited.
    The polls are one interval apart, the first one interval after the call:
    a wait that is still going, or that a poll ended, has taken as many
    intervals as it made polls.  A wait the closer ended returns at the
    instant the closer fired, or at the instant of its last poll when the
    closer had fired by then.  A closer that is ready does not keep the
    timer case from being taken; it does when, at every turn, the goroutine
    looks at the channels before its timer expires, and then no poll is made
    after the instant the closer fired. *)
Theorem WaitForFinalStatus_timing others taskID closer w r w' :
  WaitForFinalStatus maskAny uuid WaitSleep others taskID closer w = Some (r, w') ->
  let polls := length (events w') - length (events w) in
  let waited := (Z.of_nat polls * Z.max 0 WaitSleep)%Z in
  (clock w <= clock w')%Z /\
  match r with
  | Some (None, None) =>
      exists c, closer = Some c /\ clock w' = Z.max (clock w + waited) c
  | _ => clock w' = (clock w + waited)%Z
  end /\
  ((forall n, (Z.max 0 (lag w n) < Z.max 0 WaitSleep)%Z) ->
   forall c, closer = Some c -> (clock w' <= Z.max (clock w) c)%Z).
Proof.
  intros Hwait polls waited.
  destruct (WaitForFinalStatus_run others taskID closer w)
    as (r0 & w0 & ts & last & k & Hw & Hev & _ & _ & _ & _ & _ & _ & _ & _ & Hcb & Hr).
  rewrite Hwait in Hw. injection Hw as <- <-.
  assert (Hpolls : polls = length ts + length last).
  { unfold polls. rewrite Hev, !length_app, length_map. lia. }
  unfold waited. rewrite Hpolls. clear polls waited Hpolls.
  split_and!; auto.
  - destruct r as [[[p|] [e|]]|]; try done.
    + destruct Hr as (t & _ & _ & _ & _ & _ & ->). nia.
    + destruct Hr as (e0 & _ & _ & _ & _ & ->). nia.
    + destruct Hr as (_ & _ & _ & c & _ & ->). nia.
    + destruct Hr as (_ & _ & _ & _ & ->). nia.
  - destruct r as [[[p|] [e|]]|]; try done.
    + destruct Hr as (t & -> & _ & _ & _ & -> & ->). cbn. f_equal. f_equal. lia.
    + destruct Hr as (e0 & -> & _ & _ & -> & ->). cbn. f_equal. f_equal. lia.
    + destruct Hr as (-> & _ & _ & c & Hc & ->). exists c. split; [done|].
      cbn. by rewrite Nat.add_0_r.
    + destruct Hr as (-> & _ & -> & <- & ->). cbn. f_equal. f_equal. lia.
Qed.

(** The loop has no bound of its own: called without a closer, it goes on
    polling for as long as the record is there with an empty [FinalStatus],
    one poll per interval, whatever the number of turns. *)
Theorem WaitForFinalStatus_has_no_timeout others taskID w :
  Forall (fun f => forall s, pending taskID s -> pending taskID (f s)) others ->
  pending taskID (store w) ->
  exists w',
    WaitForFinalStatus maskAny uuid WaitSleep others taskID None w = Some (None, w') /\
    length (events w') = length (events w) + length others /\
    clock w' = (clock w + Z.of_nat (length others) * Z.max 0 WaitSleep)%Z.
Proof.
  intros Hothers Hpend.
  destruct (WaitForFinalStatus_run others taskID None w)
    as (r & w' & ts & last & k & Hw & Hev & _ & Hread & _ & _ & _ & _ & _ & _ & _ & Hr).
  assert (Hlast : forall ev, last = [ev] ->
            exists t, ev = EvGet taskID (inl t) /\ FinalStatus t = StatusEmpty).
  { intros ev ->.
    destruct (pending_store_after taskID others (S (length ts)) (store w) Hothers Hpend)
      as (t & Hget & Hfin).
    exists t. split; [|done]. rewrite <- Hget. apply (Hread (length ts)).
    rewrite lookup_app_r by (rewrite length_map; lia).
    by rewrite length_map, Nat.sub_diag. }
  exists w'. destruct r as [[[p|] [e|]]|]; try done.
  - destruct Hr as (t & Hl & Hfin & _).
    destruct (Hlast _ Hl) as (t' & [= <-] & Hfin'). done.
  - destruct Hr as (e0 & Hl & _).
    destruct (Hlast _ Hl) as (t' & [=] & _).
  - by destruct Hr as (_ & _ & _ & c & [=] & _).
  - destruct Hr as (-> & _ & -> & Hlen & Hclk).
    split_and!; auto. rewrite Hev, !length_app, length_map. cbn. lia.
Qed.

(** The wait ends at the first poll that finds something else than a record
    with an empty [FinalStatus]: called without a closer, as long as the
    record stays as it is the call polls, and the poll that follows the
    first change returns, with the record read when the Storage gave one and
    with its error, masked twice, when the [Get] failed.  The call has then
    lasted one interval per poll. *)
Theorem WaitForFinalStatus_ends_at_first_change pre f post taskID : forall w,
  Forall (fun f => forall s, pending taskID s -> pending taskID (f s)) pre ->
  pending taskID (store w) ->
  ~ pending taskID (f (store_after pre (length pre) (store w))) ->
  exists r w',
    WaitForFinalStatus maskAny uuid WaitSleep (pre ++ f :: post) taskID None w
    = Some (Some r, w') /\
    length (events w') = length (events w) + S (length pre) /\
    clock w' = (clock w + Z.of_nat (S (length pre)) * Z.max 0 WaitSleep)%Z /\
    store w' = f (store_after pre (length pre) (store w)) /\
    match Storage_Get (store w') taskID with
    | inl t => exists p, r = (Some p, None) /\ heap w' !! p = Some t /\
                 FinalStatus t <> StatusEmpty
    | inr e => r = (None, Some (maskAny (maskAny e)))
    end.
Proof.
  induction pre as [|g pre IH]; intros w Hpre Hpend Hchange.
  - rewrite store_after_0 in *. cbn [app WaitForFinalStatus length].
    rewrite run_WaitForFinalStatus_turn. cbn.
    destruct (Storage_Get (f (store w)) taskID) as [t|e] eqn:Hget.
    + destruct (HasFinalStatus t) eqn:Hfin.
      * eexists _, _. split; [reflexivity|]. cbn. rewrite Hget.
        split_and!; auto; try lia.
        -- rewrite length_app. cbn. lia.
        -- eexists. split_and!; [done|apply heap_new|by apply HasFinalStatus_true].
      * destruct Hchange. exists t. split; [done|by apply HasFinalStatus_false].
    + eexists _, _. split; [reflexivity|]. cbn. rewrite Hget.
      split_and!; auto; try lia. rewrite length_app. cbn. lia.
  - inversion Hpre as [|? ? Hg Hrest]; subst.
    cbn [length] in *. rewrite store_after_cons in *.
    destruct (Hg _ Hpend) as (t & Hget & Hfin).
    cbn [app WaitForFinalStatus]. rewrite run_WaitForFinalStatus_turn. cbn.
    rewrite Hget. apply HasFinalStatus_false in Hfin. rewrite Hfin.
    match goal with |- context [WaitForFinalStatus _ _ _ _ _ _ ?w1] =>
      destruct (IH w1 Hrest) as (r & w' & Hw & Hev & Hclk & Hst & Hres)
    end.
    + cbn. by apply Hg.
    + done.
    + exists r, w'. split; [exact Hw|]. cbn in Hev, Hclk, Hst.
      split_and!; auto; try lia. rewrite Hev, length_app. cbn. lia.
Qed.

End Polling.

(** ** What a call of Create touches, and what comes after it *)

Section CreateEffects.

Context {St : Type} `{!Storage St}.
Variable maskAny : error -> error.
Variable uuid : nat -> string.
Variable action : Action.
Variable w0 : @World St.

Local Abbreviation new_loc := (new_loc w0).
Local Abbreviation new_id := (new_id uuid w0).
Local Abbreviation g_rec := (g_rec uuid w0).
Local Abbreviation g_written := (g_written uuid w0).
Local Abbreviation m_written := (m_written uuid w0).
Local Abbreviation reached := (reached maskAny uuid action w0).
Local Abbreviation Create_start := (Create_start maskAny action w0).
Local Abbreviation terminal_record := (terminal_record uuid action w0).

Lemma g_rec_ID gs : ID (g_rec gs) = new_id.
Proof. by destruct gs. Qed.

Lemma written_bound ms gs evs :
  events_ok uuid w0 ms gs evs ->
  length evs <= 2 /\ forall ev, ev ∈ evs -> exists t r, ev = EvSet t r /\ ID t = new_id.
Proof.
  pose (own := fun evs : list event =>
    length evs <= 1 /\ forall ev, ev ∈ evs -> exists t r, ev = EvSet t r /\ ID t = new_id).
  assert (Hnil : own []).
  { split; [cbn; lia|]. intros ev Hin. inversion Hin. }
  assert (Hone : forall gs1 r, own [EvSet (g_rec gs1) r]).
  { intros gs1 r. split; [cbn; lia|]. intros ev Hin.
    inversion Hin as [|? ? ? Hin']; subst; [|inversion Hin']. eauto using g_rec_ID. }
  assert (Hm : own (m_written ms)) by (destruct ms; cbn; auto).
  assert (Hg : own (g_written gs)).
  { destruct (g_written_facts uuid w0 gs) as [-> | [r ->]]; auto. }
  destruct Hm as [Hm1 Hm2], Hg as [Hg1 Hg2].
  intros [-> | [-> _]]; rewrite length_app; (split; [lia|]);
    intros ev [?|?]%elem_of_app; auto.
Qed.

(** Under every schedule of the caller and the goroutine, [Create] and its
    goroutine leave every task object that was there as it was and allocate
    at most one; they call the Storage at most twice, each call a write of a
    record under the identifier drawn, and never read from it, so that the
    state of the Storage is the one these writes lead to; they draw at most
    one identifier, start at most one goroutine and log at most one
    error. *)
Theorem Create_touches_only_its_task (sched : list nat) :
  exists c evs l,
    exec uuid sched Create_start = Some c /\
    (forall q t, heap w0 !! q = Some t -> heap (world c) !! q = Some t) /\
    length (heap (world c)) <= S (length (heap w0)) /\
    events (world c) = events w0 ++ evs /\ length evs <= 2 /\
    (forall ev, ev ∈ evs -> exists t r, ev = EvSet t r /\ ID t = new_id) /\
    replay (store w0) evs (store (world c)) /\
    issued w0 <= issued (world c) <= S (issued w0) /\
    length (pool c) <= 1 /\
    logged (world c) = logged w0 ++ l /\ length l <= 1.
Proof.
  destruct (exec_Create maskAny uuid action w0 sched) as (c & ms & gs & He & Hr).
  pose proof Hr as (_ & _ & _ & Hp & Hh & Hi & (evs & Hev & Hok) & Hl).
  destruct (written_bound _ _ _ Hok) as [Hlen Hin].
  exists c, evs, (g_logged maskAny gs). split_and!; auto.
  - intros q t Hq. rewrite Hh. destruct (allocated ms); [|done]. by apply lookup_app_l_Some.
  - rewrite Hh. destruct (allocated ms); [|lia]. rewrite length_app. cbn. lia.
  - destruct (exec_replay _ _ _ _ He) as (evs' & Hev' & Hrep). cbn in Hev', Hrep.
    rewrite Hev in Hev'. apply app_inv_head in Hev'. by subst.
  - rewrite Hi. destruct (named ms); lia.
  - rewrite Hi. destruct (named ms); lia.
  - rewrite Hp. destruct (spawned ms); cbn; lia.
  - destruct gs as [| | | | | |e [e'|]| | | | |[e'|]]; cbn; lia.
Qed.

(** The write of [Create] is not ordered with the assignments of the
    goroutine.  When the action fails at once and the goroutine has made two
    of the three assignments of [MarkAsFailedWithError] by the time the
    caller writes, the record [Create] hands to the Storage has
    [ActiveStatus = Stopped] and the text of the error, and no
    [FinalStatus]; a Storage that accepts the write gives that record to
    whoever reads it next. *)
Theorem Create_may_persist_a_half_marked_record e :
  action tt = Some e ->
  let half := mkTask StatusStopped (message e) StatusEmpty new_id in
  exists c r,
    exec uuid [0; 0; 0; 1; 1; 1; 0] Create_start = Some c /\
    main c = Ret (persisted_result maskAny new_loc r) /\
    heap (world c) !! new_loc = Some half /\
    events (world c) = events w0 ++ [EvSet half r] /\
    Storage_Set (store w0) half = (store (world c), r) /\
    (StorageLaws St -> r = None -> Storage_Get (store (world c)) new_id = inl half).
Proof.
  intros Hact half.
  set (w1 := with_issued (S (issued w0)) w0).
  set (w2 := with_heap (heap w0 ++ [mkTask StatusStarted "" StatusEmpty new_id]) w1).
  set (w3 := with_heap (heap w0 ++ [mkTask StatusStopped "" StatusEmpty new_id]) w1).
  set (w4 := with_heap (heap w0 ++ [half]) w1).
  set (m := persist_and_return maskAny new_loc).
  assert (H1 : exec uuid [0; 0; 0] Create_start
               = Some (mkConfig m [g_prog maskAny action w0 GRun] w2)) by reflexivity.
  assert (H2 : sched_step uuid 1 (mkConfig m [g_prog maskAny action w0 GRun] w2)
               = Some (mkConfig m [g_prog maskAny action w0 (GFail0 e)] w2)).
  { cbn. by rewrite Hact. }
  assert (H3 : sched_step uuid 1 (mkConfig m [g_prog maskAny action w0 (GFail0 e)] w2)
               = Some (mkConfig m [g_prog maskAny action w0 (GFail1 e)] w3)).
  { cbn. unfold assign. cbn. unfold new_loc. rewrite heap_new. cbn.
    by rewrite heap_new_insert. }
  assert (H4 : sched_step uuid 1 (mkConfig m [g_prog maskAny action w0 (GFail1 e)] w3)
               = Some (mkConfig m [g_prog maskAny action w0 (GFail2 e)] w4)).
  { cbn. unfold assign. cbn. unfold new_loc. rewrite heap_new. cbn.
    by rewrite heap_new_insert. }
  destruct (Storage_Set (store w0) half) as [s' r] eqn:Hset.
  assert (H5 : sched_step uuid 0 (mkConfig m [g_prog maskAny action w0 (GFail2 e)] w4)
               = Some (mkConfig (Ret (persisted_result maskAny new_loc r))
                         [g_prog maskAny action w0 (GFail2 e)]
                         (with_store s' (EvSet half r) w4))).
  { cbn. unfold new_loc. rewrite heap_new. cbn. rewrite Hset. by destruct r. }
  eexists _, r. split.
  { change [0; 0; 0; 1; 1; 1; 0] with ([0; 0; 0] ++ [1; 1; 1; 0]).
    rewrite exec_app, H1. cbn [mbind option_bind exec]. rewrite H2, H3, H4, H5. reflexivity. }
  cbn. split_and!; auto.
  - apply heap_new.
  - intros Hlaws ->. by apply (get_after_set _ _ _ Hset).
Qed.

(** What becomes of a refused write.  In a complete run the caller returns
    the result of its own write, and the error of a write it was refused is
    returned, not logged; the goroutine has nobody to return to, and the
    error of a write it was refused is logged, masked three times.  The log
    gets nothing else.  When the goroutine wrote first, the caller wrote the
    terminal record as well. *)
Theorem Create_refused_writes (sched : list nat) c :
  exec uuid sched Create_start = Some c -> complete c ->
  exists tm rm rg,
    main c = Ret (persisted_result maskAny new_loc rm) /\
    pool c = [Ret tt] /\
    logged (world c) =
      logged w0 ++ match rg with
                   | Some e => [maskAny (maskAny (maskAny e))]
                   | None => []
                   end /\
    ID tm = new_id /\
    (events (world c) = events w0 ++ [EvSet tm rm; EvSet terminal_record rg] \/
     events (world c) = events w0 ++ [EvSet terminal_record rg; EvSet terminal_record rm]).
Proof.
  intros He Hc.
  destruct (exec_Create_inv _ _ _ _ _ _ He) as (ms & gs & Hr).
  pose proof (proj1 (reached_complete _ _ _ _ _ _ _ Hr) Hc) as [Hm0 Hg0].
  destruct Hr as ([Hgok Hmok] & _ & Hm & Hp & _ & _ & (evs & Hev & Hok) & Hl).
  destruct ms as [| | | |gs1 rm]; cbn in Hm0; try lia. cbn in Hm, Hp, Hmok.
  destruct (g_rec_facts uuid action w0 gs Hgok) as (_ & _ & _ & Hterm & _).
  specialize (Hterm ltac:(lia)).
  assert (Hgs : exists rg, g_written gs = [EvSet terminal_record rg] /\
            g_prog maskAny action w0 gs = Ret tt /\
            g_logged maskAny gs = match rg with
                                  | Some e => [maskAny (maskAny (maskAny e))]
                                  | None => []
                                  end).
  { rewrite <- Hterm. destruct gs; cbn in Hg0; try lia; eauto. }
  destruct Hgs as (rg & Hgw & Hgp & Hgl).
  exists (g_rec gs1), rm, rg. rewrite Hm, Hp, Hl, Hgp, Hgl, Hev.
  split_and!; auto using g_rec_ID.
  destruct Hok as [-> | [-> Hsame]]; rewrite Hgw; cbn; [by left|right].
  rewrite (Hsame gs1 rm eq_refl), Hterm; [done|]. by rewrite Hgw.
Qed.

(** [Create], then a read.  Once a complete run of [Create] has ended with a
    write the Storage accepted, the Storage holds the terminal record under
    the identifier drawn; [FetchState] of that identifier returns it, and so
    does the first poll of [WaitForFinalStatus], one interval after the
    call, as long as no other goroutine has changed what is stored under the
    identifier. *)
Theorem Create_then_read `{!StorageLaws St} (sched : list nat) c t WaitSleep f others :
  exec uuid sched Create_start = Some c -> complete c ->
  last (events (world c)) = Some (EvSet t None) ->
  Storage_Get (f (store (world c))) new_id = Storage_Get (store (world c)) new_id ->
  t = terminal_record /\
  Storage_Get (store (world c)) new_id = inl terminal_record /\
  (exists p w',
     run uuid (FetchState maskAny new_id) (world c) = Some ((Some p, None), w', []) /\
     heap w' !! p = Some terminal_record) /\
  (exists p w',
     WaitForFinalStatus maskAny uuid WaitSleep (f :: others) new_id None (world c)
     = Some (Some (Some p, None), w') /\
     heap w' !! p = Some terminal_record /\
     clock w' = (clock (world c) + Z.max 0 WaitSleep)%Z).
Proof.
  intros He Hc Hlast Hf.
  destruct (exec_Create_inv _ _ _ _ _ _ He) as (ms & gs & Hr).
  pose proof Hr as (_ & _ & _ & _ & _ & _ & (evs & Hev & _) & _).
  destruct (complete_last_write _ _ _ _ _ _ _ _ Hr Hc Hev) as (Hh & t1 & r1 & r & -> & Hid1).
  rewrite Hev in Hlast.
  change [EvSet t1 r1; EvSet terminal_record r]
    with ([EvSet t1 r1] ++ [EvSet terminal_record r]) in Hlast.
  rewrite app_assoc, last_snoc in Hlast.
  injection Hlast as <- ->.
  destruct (terminal_record_facts uuid action w0) as (Hid & _ & Hfin & _).
  assert (Hget : Storage_Get (store (world c)) new_id = inl terminal_record).
  { destruct (exec_replay _ _ _ _ He) as (evsT & HeT & Hrep).
    cbn in HeT, Hrep. rewrite Hev in HeT. apply app_inv_head in HeT. subst evsT.
    apply (replay_last_set _ [EvSet t1 r1]) in Hrep as (s1 & _ & Hset).
    rewrite <- Hid. by eapply get_after_set. }
  split_and!; auto.
  - rewrite run_FetchState. cbn zeta. rewrite Hget.
    eexists _, _. split; [reflexivity|]. cbn. apply heap_new.
  - cbn [WaitForFinalStatus]. rewrite run_WaitForFinalStatus_turn. cbn.
    rewrite Hf, Hget. apply HasFinalStatus_true in Hfin. rewrite Hfin.
    eexists _, _. split; [reflexivity|]. cbn. split; [|done]. apply heap_new.
Qed.

End CreateEffects.

Section CreateAgain.

Context {St : Type} `{!Storage St}.
Variable maskAny : error -> error.
Variable uuid : nat -> string.

(** [Create] called again.  After a complete run of [Create], a second call,
    under every schedule, draws another identifier (the generator giving a
    new identifier at each draw), allocates its record under another
    pointer, hands the Storage records under its own identifier only, and
    leaves the task object of the first call as its goroutine left it. *)
Theorem Create_again action1 action2 w0 sched1 c1 sched2 c2 :
  Inj (=) (=) uuid ->
  exec uuid sched1 (Create_start maskAny action1 w0) = Some c1 -> complete c1 ->
  exec uuid sched2 (Create_start maskAny action2 (world c1)) = Some c2 ->
  new_id uuid (world c1) <> new_id uuid w0 /\
  new_loc (world c1) = S (new_loc w0) /\
  heap (world c2) !! new_loc w0 = Some (terminal_record uuid action1 w0) /\
  (forall t, heap (world c2) !! new_loc (world c1) = Some t ->
     ID t = new_id uuid (world c1)) /\
  exists evs,
    events (world c2) = events (world c1) ++ evs /\
    forall t r, EvSet t r ∈ evs -> ID t <> new_id uuid w0.
Proof.
  intros Hinj He1 Hc1 He2.
  destruct (exec_Create_inv _ _ _ _ _ _ He1) as (ms & gs & Hr).
  pose proof Hr as (_ & _ & _ & _ & _ & _ & (evs1 & Hev1 & _) & _).
  destruct (complete_last_write _ _ _ _ _ _ _ _ Hr Hc1 Hev1) as (Hh1 & _).
  pose proof (proj1 (reached_complete _ _ _ _ _ _ _ Hr) Hc1) as [Hm0 _].
  destruct Hr as (_ & _ & _ & _ & Hheap & Hi & _).
  destruct ms as [| | | |gs1 rm]; cbn in Hm0; try lia. cbn in Hheap, Hi.
  assert (Hid : new_id uuid (world c1) <> new_id uuid w0).
  { unfold new_id. rewrite Hi. intros Heq%Hinj. lia. }
  destruct (exec_Create_inv _ _ _ _ _ _ He2) as (ms2 & gs2 & Hr2).
  destruct Hr2 as (_ & _ & _ & _ & Hheap2 & _ & (evs & Hev & Hok) & _).
  destruct (written_bound _ _ _ _ _ Hok) as [_ Hin].
  split_and!; auto.
  - unfold new_loc. rewrite Hheap, length_app. cbn. lia.
  - rewrite Hheap2. destruct (allocated ms2); [by apply lookup_app_l_Some|done].
  - destruct (Create_records _ _ _ _ _ _ He2) as (evs2 & _ & _ & _ & Hrec).
    intros t Ht. by destruct (Hrec t (or_introl Ht)).
  - exists evs. split; [done|]. intros t r Hel.
    destruct (Hin _ Hel) as (t' & r' & [= <- <-] & Hidt). by rewrite Hidt.
Qed.

End CreateAgain.

(** ** These theorems at work *)

Lemma marking_twice_witness :
  heap w_mem !! 0 = Some task1 /\
  exists r1 w1 r2 w2,
    run uuid_of_count (MarkAsFailedWithError maskNone 0 disk_full) w_mem = Some (r1, w1, []) /\
    run uuid_of_count (MarkAsSucceeded maskNone 0) w1 = Some (r2, w2, []) /\
    heap w2 !! 0 = Some (mkTask StatusStopped "disk full" StatusSucceeded "t1").
Proof.
  split; [reflexivity|].
  destruct (marking_twice maskNone uuid_of_count 0 task1 disk_full w_mem eq_refl)
    as (_ & _ & H & _).
  exact H.
Defined.

Lemma WaitForFinalStatus_history_witness :
  exists w',
    WaitForFinalStatus maskNone uuid_of_count DefaultWaitSleep [unchanged; finishes] "t1"
      None w_waiting
    = Some (Some (Some 1, None), w') /\
    exists ts last,
      events w' = events w_waiting ++ map (fun t => EvGet "t1" (inl t)) ts ++ last /\
      Forall (fun t => FinalStatus t = StatusEmpty) ts /\
      length ts < 2 /\
      store w' = store_after [unchanged; finishes] (S (length ts)) (store w_waiting) /\
      exists t, last = [EvGet "t1" (inl t)] /\ FinalStatus t <> StatusEmpty /\
        heap w' !! 1 = Some t /\ Storage_Get (store w') "t1" = inl t.
Proof.
  destruct (WaitForFinalStatus maskNone uuid_of_count DefaultWaitSleep [unchanged; finishes]
              "t1" None w_waiting) as [[r w']|] eqn:He;
    [|vm_compute in He; discriminate He].
  assert (Hr : r = Some (Some 1, None)).
  { vm_compute in He. injection He as <- _. reflexivity. }
  subst r. exists w'. split; [reflexivity|].
  exact (WaitForFinalStatus_history maskNone uuid_of_count DefaultWaitSleep _ _ _ _ _ _ He).
Defined.

Lemma WaitForFinalStatus_timing_witness :
  exists w',
    WaitForFinalStatus maskNone uuid_of_count DefaultWaitSleep
      [unchanged; unchanged; unchanged] "t1" (Some 2500000000%Z) w_waiting
    = Some (Some (None, None), w') /\
    length (events w') - length (events w_waiting) = 2 /\
    (clock w_waiting <= clock w')%Z /\
    (exists c, Some 2500000000%Z = Some c /\
       clock w' = Z.max (clock w_waiting + Z.of_nat 2 * Z.max 0 DefaultWaitSleep) c) /\
    (clock w' <= Z.max (clock w_waiting) 2500000000)%Z.
Proof.
  destruct (WaitForFinalStatus maskNone uuid_of_count DefaultWaitSleep
              [unchanged; unchanged; unchanged] "t1" (Some 2500000000%Z) w_waiting)
    as [[r w']|] eqn:He; [|vm_compute in He; discriminate He].
  assert (Hr : r = Some (None, None)).
  { vm_compute in He. injection He as <- _. reflexivity. }
  assert (Hn : length (events w') - length (events w_waiting) = 2).
  { vm_compute in He. injection He as _ <-. reflexivity. }
  subst r. exists w'. split; [reflexivity|]. split; [exact Hn|].
  destruct (WaitForFinalStatus_timing maskNone uuid_of_count DefaultWaitSleep _ _ _ _ _ _ He)
    as (Hle & Hend & Hbound).
  rewrite Hn in Hend.
  split; [exact Hle|]. split; [exact Hend|].
  apply Hbound; [intros n; reflexivity|reflexivity].
Defined.

Lemma WaitForFinalStatus_has_no_timeout_witness :
  pending "t1" (store w_waiting) /\
  exists w',
    WaitForFinalStatus maskNone uuid_of_count DefaultWaitSleep
      [unchanged; unchanged; unchanged] "t1" None w_waiting
    = Some (None, w') /\
    length (events w') = length (events w_waiting) + 3 /\
    clock w' = (clock w_waiting + 3 * Z.max 0 DefaultWaitSleep)%Z.
Proof.
  assert (Hpend : pending "t1" (store w_waiting)).
  { exists task1. split; reflexivity. }
  split; [exact Hpend|].
  apply (WaitForFinalStatus_has_no_timeout maskNone uuid_of_count DefaultWaitSleep
           [unchanged; unchanged; unchanged] "t1" w_waiting); [|exact Hpend].
  repeat constructor; intros s Hs; exact Hs.
Defined.

Lemma WaitForFinalStatus_ends_at_first_change_witness :
  pending "t1" (store w_waiting) /\
  exists r w',
    WaitForFinalStatus maskNone uuid_of_count DefaultWaitSleep
      ([unchanged] ++ finishes :: [unchanged]) "t1" None w_waiting
    = Some (Some r, w') /\
    length (events w') = length (events w_waiting) + 2 /\
    clock w' = (clock w_waiting + 2 * Z.max 0 DefaultWaitSleep)%Z /\
    store w' = finishes (store_after [unchanged] 1 (store w_waiting)) /\
    match Storage_Get (store w') "t1" with
    | inl t => exists p, r = (Some p, None) /\ heap w' !! p = Some t /\
                 FinalStatus t <> StatusEmpty
    | inr e => r = (None, Some (maskNone (maskNone e)))
    end.
Proof.
  assert (Hpend : pending "t1" (store w_waiting)).
  { exists task1. split; reflexivity. }
  split; [exact Hpend|].
  apply (WaitForFinalStatus_ends_at_first_change maskNone uuid_of_count DefaultWaitSleep
           [unchanged] finishes [unchanged] "t1" w_waiting); [|exact Hpend|].
  - repeat constructor; intros s Hs; exact Hs.
  - intros (t & Hget & Hfin). vm_compute in Hget. injection Hget as <-. discriminate Hfin.
Defined.

Lemma Create_refused_writes_witness :
  exists c,
    exec uuid_of_count [0; 0; 0; 1; 1; 1; 1; 1; 1; 0]
      (Create_start maskNone failing (world0 (∅, [true]))) = Some c /\
    complete c /\
    exists tm rm rg,
      main c = Ret (persisted_result maskNone 0 rm) /\
      pool c = [Ret tt] /\
      logged (world c) =
        [] ++ match rg with
              | Some e => [maskNone (maskNone (maskNone e))]
              | None => []
              end /\
      ID tm = "0" /\
      (events (world c) =
         [] ++ [EvSet tm rm; EvSet (mkTask StatusStopped "disk full" StatusFailed "0") rg] \/
       events (world c) =
         [] ++ [EvSet (mkTask StatusStopped "disk full" StatusFailed "0") rg;
                EvSet (mkTask StatusStopped "disk full" StatusFailed "0") rm]).
Proof.
  destruct (exec uuid_of_count [0; 0; 0; 1; 1; 1; 1; 1; 1; 0]
              (Create_start maskNone failing (world0 (∅, [true])))) as [c|] eqn:He;
    [|vm_compute in He; discriminate He].
  assert (Hc : complete c).
  { vm_compute in He. injection He as <-. split; [exact I|repeat constructor]. }
  exists c. split; [reflexivity|]. split; [exact Hc|].
  exact (Create_refused_writes maskNone uuid_of_count failing (world0 (∅, [true])) _ c He Hc).
Defined.

Lemma Create_then_read_witness :
  exists c,
    exec uuid_of_count (repeat 0 4 ++ repeat 1 6)
      (Create_start maskNone succeeding (world0 ∅)) = Some c /\
    complete c /\
    last (events (world c)) = Some (EvSet (mkTask StatusStopped "" StatusSucceeded "0") None) /\
    Storage_Get (store (world c)) "0" = inl (mkTask StatusStopped "" StatusSucceeded "0") /\
    (exists p w',
       run uuid_of_count (FetchState maskNone "0") (world c) = Some ((Some p, None), w', []) /\
       heap w' !! p = Some (mkTask StatusStopped "" StatusSucceeded "0")) /\
    (exists p w',
       WaitForFinalStatus maskNone uuid_of_count DefaultWaitSleep [unchanged] "0" None (world c)
       = Some (Some (Some p, None), w') /\
       heap w' !! p = Some (mkTask StatusStopped "" StatusSucceeded "0") /\
       clock w' = (clock (world c) + Z.max 0 DefaultWaitSleep)%Z).
Proof.
  destruct (exec uuid_of_count (repeat 0 4 ++ repeat 1 6)
              (Create_start maskNone succeeding (world0 ∅))) as [c|] eqn:He;
    [|vm_compute in He; discriminate He].
  assert (Hc : complete c).
  { vm_compute in He. injection He as <-. split; [exact I|repeat constructor]. }
  assert (Hlast : last (events (world c))
                  = Some (EvSet (mkTask StatusStopped "" StatusSucceeded "0") None)).
  { vm_compute in He. injection He as <-. reflexivity. }
  exists c. split; [reflexivity|]. split; [exact Hc|]. split; [exact Hlast|].
  destruct (Create_then_read maskNone uuid_of_count succeeding (world0 ∅) _ c _
              DefaultWaitSleep unchanged [] He Hc Hlast eq_refl)
    as (_ & Hget & Hfetch & Hwait).
  split; [exact Hget|]. split; [exact Hfetch|exact Hwait].
Defined.

Lemma Create_again_witness :
  exists c1 c2,
    exec uuid_of_count (repeat 0 4 ++ repeat 1 6)
      (Create_start maskNone failing (world0 ∅)) = Some c1 /\
    complete c1 /\
    exec uuid_of_count [0; 0; 0; 1; 0; 1]
      (Create_start maskNone succeeding (world c1)) = Some c2 /\
    new_id uuid_of_count (world c1) <> "0" /\
    new_loc (world c1) = 1 /\
    heap (world c2) !! 0 = Some (mkTask StatusStopped "disk full" StatusFailed "0").
Proof.
  destruct (exec uuid_of_count (repeat 0 4 ++ repeat 1 6)
              (Create_start maskNone failing (world0 ∅))) as [c1|] eqn:He1;
    [|vm_compute in He1; discriminate He1].
  assert (Hc1 : complete c1).
  { vm_compute in He1. injection He1 as <-. split; [exact I|repeat constructor]. }
  destruct (exec_Create maskNone uuid_of_count succeeding (world c1) [0; 0; 0; 1; 0; 1])
    as (c2 & _ & _ & He2 & _).
  exists c1, c2. split; [reflexivity|]. split; [exact Hc1|]. split; [exact He2|].
  destruct (Create_again maskNone uuid_of_count failing succeeding (world0 ∅) _ c1 _ c2
              pretty_nat_inj He1 Hc1 He2) as (Hid & Hloc & Hheap & _).
  split; [exact Hid|]. split; [exact Hloc|exact Hheap].
Defined.

Lemma Create_may_persist_a_half_marked_record_witness :
  failing tt = Some disk_full /\
  exists c r,
    exec uuid_of_count [0; 0; 0; 1; 1; 1; 0] (Create_start maskNone failing (world0 ∅))
    = Some c /\
    main c = Ret (persisted_result maskNone 0 r) /\
    heap (world c) !! 0 = Some (mkTask StatusStopped "disk full" StatusEmpty "0") /\
    events (world c) = [EvSet (mkTask StatusStopped "disk full" StatusEmpty "0") r] /\
    (r = None ->
     Storage_Get (store (world c)) "0"
     = inl (mkTask StatusStopped "disk full" StatusEmpty "0")).
Proof.
  split; [reflexivity|].
  destruct (Create_may_persist_a_half_marked_record maskNone uuid_of_count failing
              (world0 ∅) disk_full eq_refl) as (c & r & He & Hm & Hh & Hev & _ & Hget).
  exists c, r. split_and!; [exact He|exact Hm|exact Hh|exact Hev|exact (Hget _)].
Defined.
